(** * Macro expansion and un-expansion: [dwh_migration_client.macro_expander]

    A shallow embedding of [MacroExpander] and [MacroExpanderRouter]
    (src/client/dwh_migration_client/macro_expander.py) and of the expander
    configured in [aurigae_macros.py], together with the properties of the
    specification that concern them.

    Conventions of the embedding:
    - Python [str] is [string]; characters are the ASCII code points.
    - [Dict] objects that the code iterates over ([reverse[file]], the
      router's [all_macros]) are association lists in insertion order;
      dictionaries that are only looked up and assigned are [gmap]s.
    - [Set[str]] is [gset string].  [set.pop()] removes an arbitrary element:
      the element is selected by the next number of a tape carried by the
      state, so a statement quantified over all tapes covers every choice
      the interpreter may make.
    - Methods run in a state-and-exception monad: the state holds the object
      fields, the log of emitted warnings and the tape; an exception leaves
      the state as it was when raised. *)

From Stdlib Require Import String Ascii List Arith Lia.
From stdpp Require Import base option list gmap strings.

Open Scope string_scope.

(** ** Characters and strings *)

Definition backslash : ascii := ascii_of_nat 92.
Definition newline : ascii := ascii_of_nat 10.

Definition in_range (lo hi : nat) (c : ascii) : bool :=
  Nat.leb lo (nat_of_ascii c) && Nat.leb (nat_of_ascii c) hi.

Definition is_digit (c : ascii) : bool := in_range 48 57 c.
Definition is_octdigit (c : ascii) : bool := in_range 48 55 c.
Definition is_upper (c : ascii) : bool := in_range 65 90 c.
Definition is_lower (c : ascii) : bool := in_range 97 122 c.
Definition is_ascii_letter (c : ascii) : bool := is_upper c || is_lower c.

(** [\w] on ASCII text: letters, digits and the underscore. *)
Definition is_word (c : ascii) : bool :=
  is_ascii_letter c || is_digit c || Ascii.eqb c "_".

Definition lower_char (c : ascii) : ascii :=
  if is_upper c then ascii_of_nat (nat_of_ascii c + 32) else c.

(** [str.lower()] *)
Fixpoint lower (s : string) : string :=
  match s with
  | "" => ""
  | String c s' => String (lower_char c) (lower s')
  end.

Fixpoint str_take (n : nat) (s : string) : string :=
  match n, s with
  | S k, String c s' => String c (str_take k s')
  | _, _ => ""
  end.

Fixpoint str_drop (n : nat) (s : string) : string :=
  match n, s with
  | S k, String _ s' => str_drop k s'
  | _, _ => s
  end.

(** [c in s] for a character *)
Fixpoint has_char (c : ascii) (s : string) : bool :=
  match s with
  | "" => false
  | String d s' => Ascii.eqb c d || has_char c s'
  end.

(** [set(s)]: the characters of a string, as one-character strings *)
Fixpoint chars (s : string) : gset string :=
  match s with
  | "" => ∅
  | String c s' => {[ String c "" ]} ∪ chars s'
  end.

(** ** Exceptions, warnings and the method monad *)

Inductive exn : Set :=
| KeyError      (* [set.pop()] on an empty set *)
| NameError     (* a global name that is not defined *)
| IndexError    (* unknown group name in a replacement template *)
| re_error.     (* [re.error]: malformed replacement template *)

(** The records handed to [logging.warn]/[logging.warning], by call site. *)
Inductive log_record : Type :=
| WarnNotAccurate (replacement : string) (originals : gset string)
| WarnCouldNotExpand (full_match : string)
| WarnMultiplePatterns (file_name chosen_pattern : string).

Definition M (St A : Type) : Type := St -> (exn + A) * St.

Definition ret {St A} (a : A) : M St A := fun s => (inr a, s).
Definition raise {St A} (e : exn) : M St A := fun s => (inl e, s).
Definition bind {St A B} (m : M St A) (k : A -> M St B) : M St B :=
  fun s => match m s with
           | (inr a, s') => k a s'
           | (inl e, s') => (inl e, s')
           end.
Definition get {St} : M St St := fun s => (inr s, s).
Definition put {St} (s : St) : M St unit := fun _ => (inr tt, s).

Notation "x <- c ;; k" := (bind c (fun x => k))
  (at level 100, c at next level, right associativity).
Notation "c ;;; k" := (bind c (fun _ => k))
  (at level 100, right associativity).

(** ** The fragment of Python's [re] used by the expander *)

Module re.

(** A match object, through the two groups the code reads. *)
Record Match : Type := mkMatch { group0 : string; group1 : string }.

(** A compiled pattern with one capture group, seen through the operation
    [sub] needs: matching at the head of the remaining text.
    [p s = Some (m, g)] says that the pattern matches the first [S m]
    characters of [s] with group 1 equal to [g]; patterns that can match the
    empty string, or whose match depends on the text before the position,
    are outside this representation. *)
Definition Pattern : Type := string -> option (nat * string).

(** The maximal run of word characters at the head of [s], and what follows. *)
Fixpoint span_word (s : string) : string * string :=
  match s with
  | "" => ("", "")
  | String c s' =>
      if is_word c
      then let '(w, r) := span_word s' in (String c w, r)
      else ("", s)
  end.

(** [re.compile("\\$\\{(\\w+)\\}", re.I)].  The greedy [\w+] never needs to
    give characters back, since the closing brace is not a word character;
    the flag does not change what the pattern matches. *)
Definition macro_pattern : Pattern := fun s =>
  match s with
  | String "$" (String "{" s') =>
      match span_word s' with
      | (String c w, String "}" _) =>
          Some (2 + String.length (String c w), String c w)
      | _ => None
      end
  | _ => None
  end.

(** [pattern.sub(repl, text)] for a callable [repl]: the text is scanned
    left to right, each non-overlapping match is handed to [repl] and the
    string it returns is spliced in as it is.  [skip] counts the characters
    still covered by the match found last. *)
Fixpoint sub_from {St} (p : Pattern) (repl : Match -> M St string)
    (skip : nat) (text : string) : M St string :=
  match text with
  | "" => ret ""
  | String c rest =>
      match skip with
      | S k => sub_from p repl k rest
      | O =>
          match p text with
          | Some (m, g) =>
              v <- repl (mkMatch (str_take (S m) text) g) ;;
              out <- sub_from p repl m rest ;;
              ret (v +:+ out)
          | None =>
              out <- sub_from p repl 0 rest ;;
              ret (String c out)
          end
      end
  end.

Definition sub {St} (p : Pattern) (repl : Match -> M St string)
    (text : string) : M St string :=
  sub_from p repl 0 text.

(** [pattern.finditer(text)]: the matches [sub] visits, in order. *)
Fixpoint findall_from (p : Pattern) (skip : nat) (text : string) : list Match :=
  match text with
  | "" => []
  | String c rest =>
      match skip with
      | S k => findall_from p k rest
      | O =>
          match p text with
          | Some (m, g) =>
              mkMatch (str_take (S m) text) g :: findall_from p m rest
          | None => findall_from p 0 rest
          end
      end
  end.

Definition findall (p : Pattern) (text : string) : list Match :=
  findall_from p 0 text.

(** *** Replacement templates

    A string given as [repl] is a template.  [re.escape(x)] has no groups,
    so the only group a template can refer to is group 0, the match. *)

Inductive item : Type :=
| Lit (c : ascii)
| Group0.

(** The name of [\g<name>]: the characters up to the closing [>]. *)
Fixpoint getuntil_gt (s : string) : option string :=
  match s with
  | "" => None
  | String c s' =>
      if Ascii.eqb c ">" then Some ""
      else match getuntil_gt s' with
           | Some n => Some (String c n)
           | None => None
           end
  end.

Fixpoint all_chars (f : ascii -> bool) (s : string) : bool :=
  match s with
  | "" => true
  | String c s' => f c && all_chars f s'
  end.

Definition all_zero (s : string) : bool := all_chars (Ascii.eqb "0") s.

Definition is_identifier (s : string) : bool :=
  match s with
  | "" => false
  | String c s' =>
      (is_ascii_letter c || Ascii.eqb c "_") && all_chars is_word s'
  end.

Definition octal_value (s : string) : nat :=
  (fix go (acc : nat) (s : string) : nat :=
     match s with
     | "" => acc
     | String c s' => go (8 * acc + (nat_of_ascii c - 48)) s'
     end) 0 s.

(** [ESCAPES] of the template parser. *)
Definition escape_code (c : ascii) : option nat :=
  if Ascii.eqb c "a" then Some 7
  else if Ascii.eqb c "b" then Some 8
  else if Ascii.eqb c "f" then Some 12
  else if Ascii.eqb c "n" then Some 10
  else if Ascii.eqb c "r" then Some 13
  else if Ascii.eqb c "t" then Some 9
  else if Ascii.eqb c "v" then Some 11
  else if Ascii.eqb c backslash then Some 92
  else None.

(** One step of [parse_template] at the head of a non-empty template:
    the items produced and the number of further characters consumed. *)
Definition template_token (c : ascii) (s : string) : exn + (list item * nat) :=
  if negb (Ascii.eqb c backslash) then inr ([Lit c], 0)
  else
    match s with
    | "" => inl re_error                         (* bad escape (end of pattern) *)
    | String c1 s1 =>
        if Ascii.eqb c1 "g" then
          match s1 with
          | String "<" s2 =>
              match getuntil_gt s2 with
              | None => inl re_error             (* missing >, unterminated name *)
              | Some "" => inl re_error          (* missing group name *)
              | Some name =>
                  if all_chars is_digit name then
                    if all_zero name
                    then inr ([Group0], 3 + String.length name)
                    else inl re_error            (* invalid group reference *)
                  else if is_identifier name
                       then inl IndexError       (* unknown group name *)
                       else inl re_error         (* bad character in group name *)
              end
          | _ => inl re_error                    (* missing < *)
          end
        else if Ascii.eqb c1 "0" then
          let d := str_take 2 s1 in
          let n := if all_chars is_octdigit d then String.length d
                   else if all_chars is_octdigit (str_take 1 d) then 1 else 0 in
          inr ([Lit (ascii_of_nat
                       (octal_value (str_take n s1) mod 256))], 1 + n)
        else if is_digit c1 then
          match s1 with
          | String c2 (String c3 _) =>
              if is_octdigit c1 && is_octdigit c2 && is_octdigit c3 then
                let v := octal_value (String c1 (String c2 (String c3 ""))) in
                if Nat.ltb 255 v then inl re_error    (* octal escape out of range *)
                else inr ([Lit (ascii_of_nat v)], 3)
              else inl re_error                  (* invalid group reference *)
          | _ => inl re_error                    (* invalid group reference *)
          end
        else
          match escape_code c1 with
          | Some n => inr ([Lit (ascii_of_nat n)], 1)
          | None =>
              if is_ascii_letter c1 then inl re_error   (* bad escape *)
              else inr ([Lit c; Lit c1], 1)
          end
    end.

Fixpoint parse_template_from (skip : nat) (s : string) : exn + list item :=
  match s with
  | "" => inr []
  | String c s' =>
      match skip with
      | S k => parse_template_from k s'
      | O =>
          match template_token c s' with
          | inl e => inl e
          | inr (its, n) =>
              match parse_template_from n s' with
              | inl e => inl e
              | inr rest => inr (its ++ rest)%list
              end
          end
      end
  end.

(** A template without a backslash is used literally, without parsing. *)
Definition compile_template (repl : string) : exn + list item :=
  if has_char backslash repl
  then parse_template_from 0 repl
  else inr (map Lit (list_ascii_of_string repl)).

Fixpoint expand_template (t : list item) (matched : string) : string :=
  match t with
  | [] => ""
  | Lit c :: t' => String c (expand_template t' matched)
  | Group0 :: t' => matched +:+ expand_template t' matched
  end.

(** *** Literal patterns: [re.escape(x)], with or without [re.I] *)

Definition char_eqb (ignore_case : bool) (a b : ascii) : bool :=
  if ignore_case then Ascii.eqb (lower_char a) (lower_char b)
  else Ascii.eqb a b.

(** Does the literal [x] match at the head of [s]? *)
Fixpoint starts_with (ignore_case : bool) (x s : string) : bool :=
  match x, s with
  | "", _ => true
  | String a x', String b s' =>
      char_eqb ignore_case a b && starts_with ignore_case x' s'
  | String _ _, "" => false
  end.

(** Non-empty literal: leftmost non-overlapping occurrences. *)
Fixpoint subn_from (ignore_case : bool) (x : string) (t : list item)
    (skip : nat) (text : string) : string * nat :=
  match text with
  | "" => ("", 0)
  | String c rest =>
      match skip with
      | S k => subn_from ignore_case x t k rest
      | O =>
          if starts_with ignore_case x text then
            let '(out, n) :=
              subn_from ignore_case x t (String.length x - 1) rest in
            (expand_template t (str_take (String.length x) text) +:+ out, S n)
          else
            let '(out, n) := subn_from ignore_case x t 0 rest in
            (String c out, n)
      end
  end.

(** The empty literal matches before every character and at the end. *)
Fixpoint subn_empty (t : list item) (text : string) : string * nat :=
  match text with
  | "" => (expand_template t "", 1)
  | String c rest =>
      let '(out, n) := subn_empty t rest in
      (expand_template t "" +:+ String c out, S n)
  end.

(** [re.subn(re.escape(x), repl, text, flags=...)]: the template is compiled
    first (and may be rejected), then the text is rewritten; the result is
    the new text and the number of replacements. *)
Definition subn_escape (ignore_case : bool) (x repl text : string)
    : exn + (string * nat) :=
  match compile_template repl with
  | inl e => inl e
  | inr t =>
      inr (match x with
           | "" => subn_empty t text
           | _ => subn_from ignore_case x t 0 text
           end)
  end.

End re.


(** ** Dictionaries that are iterated over: association lists in insertion
    order.  Assigning to a key that is present keeps its position. *)

Abbreviation dict V := (list (string * V)).

Fixpoint dict_get {V} (k : string) (d : dict V) : option V :=
  match d with
  | [] => None
  | (k', v) :: d' => if String.eqb k k' then Some v else dict_get k d'
  end.

Fixpoint dict_set {V} (k : string) (v : V) (d : dict V) : dict V :=
  match d with
  | [] => [(k, v)]
  | (k', v') :: d' =>
      if String.eqb k k' then (k', v) :: d' else (k', v') :: dict_set k v d'
  end.

(** ** [class MacroExpander] *)

Record MacroExpander : Type := mkExpander {
  (* the compiled pattern *)
  pattern : re.Pattern;
  (* macro name -> replacement *)
  mapping : option (gmap string string);
  (* function for generating values when a macro is missing from 'mapping' *)
  generator : option (string -> string -> string);
  (* function for custom un-expanding of macros *)
  un_generator : option (string -> string -> string -> string);
  (* file name -> [replacement -> (count, original(s))] *)
  reverse : gmap string (dict (nat * gset string));
  (* file name -> unmapped macros *)
  unmapped : gmap string (gset string)
}.

Definition __init__ (pattern : re.Pattern)
    (mapping : option (gmap string string))
    (generator : option (string -> string -> string))
    (un_generator : option (string -> string -> string -> string))
    : MacroExpander :=
  mkExpander pattern mapping generator un_generator ∅ ∅.

Definition set_reverse (e : MacroExpander)
    (r : gmap string (dict (nat * gset string))) : MacroExpander :=
  mkExpander (pattern e) (mapping e) (generator e) (un_generator e)
             r (unmapped e).

Definition set_unmapped (e : MacroExpander)
    (u : gmap string (gset string)) : MacroExpander :=
  mkExpander (pattern e) (mapping e) (generator e) (un_generator e)
             (reverse e) u.

(** The state a method of an expander runs in. *)
Record state : Type := mkState {
  self : MacroExpander;
  log : list log_record;      (* warnings emitted so far, oldest first *)
  tape : list nat             (* the choices [set.pop()] will make *)
}.

Definition get_self : M state MacroExpander :=
  fun st => (inr (self st), st).

Definition put_self (e : MacroExpander) : M state unit :=
  fun st => (inr tt, mkState e (log st) (tape st)).

(** [logging.warn(...)] *)
Definition warn (r : log_record) : M state unit :=
  fun st => (inr tt, mkState (self st) (log st ++ [r])%list (tape st)).

Definition next_choice : M state nat :=
  fun st => match tape st with
            | [] => (inr 0, st)
            | n :: t => (inr n, mkState (self st) (log st) t)
            end.

Definition lift_exn {A} (r : exn + A) : M state A :=
  match r with
  | inl e => raise e
  | inr a => ret a
  end.

(** [self.mapping and macro_name in self.mapping], then
    [self.mapping[macro_name]]: an empty dictionary is as good as [None]. *)
Definition mapped (mp : option (gmap string string)) (macro_name : string)
    : option string :=
  match mp with
  | Some d => if bool_decide (d = ∅) then None else d !! macro_name
  | None => None
  end.

Definition _substitution (file_name : string) (m : re.Match) : M state string :=
  let macro_name := re.group1 m in
  let full_match := re.group0 m in
  e <- get_self ;;
  generated <-
    match mapped (mapping e) macro_name with
    | Some v => ret v
    | None =>
        match generator e with
        | Some g =>
            match unmapped e !! file_name with
            | Some names =>
                (* the union is computed and dropped: the stored set is
                   not updated *)
                let _ := names ∪ chars macro_name in ret tt
            | None =>
                put_self (set_unmapped e (<[file_name := {[macro_name]}]> (unmapped e)))
            end ;;;
            ret (g file_name macro_name)
        | None =>
            warn (WarnCouldNotExpand full_match) ;;;
            ret full_match
        end
    end ;;
  e <- get_self ;;
  match reverse e !! file_name with
  | Some _ => ret tt
  | None => put_self (set_reverse e (<[file_name := []]> (reverse e)))
  end ;;;
  e <- get_self ;;
  let reverse_for_file := default [] (reverse e !! file_name) in
  let entry :=
    match dict_get generated reverse_for_file with
    | Some original => (original.1 + 1, original.2 ∪ {[full_match]})
    | None => (1, {[full_match]})
    end in
  put_self (set_reverse e
    (<[file_name := dict_set generated entry reverse_for_file]> (reverse e))) ;;;
  ret generated.

Definition expand (file_name text : string) : M state string :=
  e <- get_self ;;
  re.sub (pattern e) (fun m => _substitution file_name m) text.

Fixpoint _sanity_check_items (items : dict (nat * gset string)) : M state unit :=
  match items with
  | [] => ret tt
  | (replacement, originals) :: items' =>
      (if Nat.ltb 1 (size originals.2)
       then warn (WarnNotAccurate replacement originals.2)
       else ret tt) ;;;
      _sanity_check_items items'
  end.

Definition _sanity_check (file_name : string) : M state unit :=
  e <- get_self ;;
  match reverse e !! file_name with
  | Some items => _sanity_check_items items
  | None => raise KeyError
  end.

(** [original[1].pop()] for the entry at position [i] of
    [self.reverse[file_name]]: the set object held by the entry shrinks in
    place; the entry's key and count stay. *)
Definition pop (file_name : string) (i : nat) (replacement : string)
    (original : nat * gset string) : M state string :=
  match elements original.2 with
  | [] => raise KeyError
  | (x0 :: _) as l =>
      n <- next_choice ;;
      let x := nth (n mod length l) l x0 in
      e <- get_self ;;
      put_self (set_reverse e
        (<[file_name :=
             <[i := (replacement, (original.1, original.2 ∖ {[x]}))]>
               (default [] (reverse e !! file_name))]> (reverse e))) ;;;
      ret x
  end.

(** The loop of [un_expand], from the entry at position [i] on. *)
Fixpoint un_expand_items (file_name : string) (i : nat)
    (items : dict (nat * gset string)) (text : string) : M state string :=
  match items with
  | [] => ret text
  | (replacement, original) :: items' =>
      original_text <- pop file_name i replacement original ;;
      e <- get_self ;;
      result <-
        match un_generator e with
        | Some ug =>
            lift_exn (re.subn_escape true replacement
                        (ug file_name replacement original_text) text)
        | None =>
            lift_exn (re.subn_escape false replacement original_text text)
        end ;;
      un_expand_items file_name (S i) items' result.1
  end.

Definition un_expand (file_name text : string) : M state string :=
  e <- get_self ;;
  match reverse e !! file_name with
  | None => ret text
  | Some _ =>
      _sanity_check file_name ;;;
      e <- get_self ;;
      un_expand_items file_name 0 (default [] (reverse e !! file_name)) text
  end.

(** ** [class MacroExpanderRouter]

    The router holds references to expander objects; one object may be
    registered under several patterns.  Objects live in a store indexed by
    address.  [fnmatch] is the library's glob matcher. *)

Record MacroExpanderRouter : Type := mkRouter {
  all_macros : dict nat        (* glob pattern -> address of the expander *)
}.

Record rstate : Type := mkRState {
  objects : nat -> MacroExpander;
  rlog : list log_record;
  rtape : list nat
}.

(** Calling a method on the object at address [a]. *)
Definition call {A} (a : nat) (m : M state A) : M rstate A :=
  fun rs =>
    let '(r, st) := m (mkState (objects rs a) (rlog rs) (rtape rs)) in
    (r, mkRState (fun b => if Nat.eqb b a then self st else objects rs b)
                 (log st) (tape st)).

Section Router.

Variable fnmatch : string -> string -> bool.

(** The loop of [choose_expander]: the chosen expander and pattern and the
    list [matches] after visiting the routes in order. *)
Definition choose_loop (file_name : string) (routes : dict nat)
    : option nat * option string * list string :=
  fold_left
    (fun acc route =>
       if fnmatch file_name route.1
       then (Some route.2, Some route.1, (acc.2 ++ [file_name])%list)
       else acc)
    routes (None, None, []).

Definition choose_expander (router : MacroExpanderRouter) (file_name : string)
    : M rstate (option nat) :=
  let '(chosen_expander, chosen_pattern, matches) :=
    choose_loop file_name (all_macros router) in
  if Nat.eqb (length matches) 0 then ret None
  else
    (if Nat.ltb 1 (length matches)
     then raise NameError       (* [loggin] is not defined *)
     else ret tt) ;;;
    ret chosen_expander.

Definition Router_expand (router : MacroExpanderRouter)
    (file_name text : string) : M rstate string :=
  expander <- choose_expander router file_name ;;
  match expander with
  | Some a => call a (expand file_name text)
  | None => ret text
  end.

Definition Router_un_expand (router : MacroExpanderRouter)
    (file_name text : string) : M rstate string :=
  expander <- choose_expander router file_name ;;
  match expander with
  | Some a => call a (un_expand file_name text)
  | None => ret text
  end.

End Router.

(** ** [aurigae_macros.py] *)

Module aurigae.

(** The group of [re.match("PARAM_(.+)_PARAM", s)] once the leading
    ["PARAM_"] is consumed: the longest non-empty run [x] of characters
    other than newline that is followed by ["_PARAM"]. *)
Fixpoint greedy_until (lit s : string) : option string :=
  match s with
  | "" => None
  | String c s' =>
      if Ascii.eqb c newline then None
      else match greedy_until lit s' with
           | Some x => Some (String c x)
           | None =>
               if re.starts_with false lit s' then Some (String c "") else None
           end
  end.

Definition match_PARAM (replacement : string) : option string :=
  if re.starts_with false "PARAM_" replacement
  then greedy_until "_PARAM" (str_drop 6 replacement)
  else None.

Definition un_generator (file_name replacement macro_name : string) : string :=
  let unexpanded :=
    match match_PARAM replacement with
    | Some g => g
    | None => macro_name
    end in
  "{" +:+ unexpanded +:+ "}".

Definition generator (file_name macro_name : string) : string :=
  "PARAM_" +:+ lower macro_name +:+ "_PARAM".

Definition expander : MacroExpander :=
  __init__ re.macro_pattern None (Some generator) (Some un_generator).

(** Both patterns route to the same expander object, at address 0. *)
Definition aurigae_macro_router : MacroExpanderRouter :=
  mkRouter [("*.sql", 0); ("*.bteq", 0)].

End aurigae.

(** ** A glob matcher for the examples

    [fnmatch(name, pat)] for patterns made of literal characters, [*] (any
    run of characters) and [?] (any single character). *)

Fixpoint glob (pat name : string) : bool :=
  match pat with
  | "" => match name with "" => true | _ => false end
  | String c pat' =>
      if Ascii.eqb c "*" then
        (fix star (name : string) : bool :=
           glob pat' name ||
           match name with
           | "" => false
           | String _ name' => star name'
           end) name
      else
        match name with
        | "" => false
        | String d name' =>
            (Ascii.eqb c "?" || Ascii.eqb c d) && glob pat' name'
        end
  end.

Definition glob_fnmatch (file_name pat : string) : bool := glob pat file_name.

(** ** Functions used to state the properties *)

(** The value [_substitution] resolves a match to, as a function of the
    expander's configuration. *)
Definition resolve (e : MacroExpander) (file_name : string) (m : re.Match)
    : string :=
  match mapped (mapping e) (re.group1 m) with
  | Some v => v
  | None =>
      match generator e with
      | Some g => g file_name (re.group1 m)
      | None => re.group0 m
      end
  end.

(** The text [sub] builds when every match [m] is replaced by [f m]. *)
Fixpoint render (p : re.Pattern) (f : re.Match -> string)
    (skip : nat) (text : string) : string :=
  match text with
  | "" => ""
  | String c rest =>
      match skip with
      | S k => render p f k rest
      | O =>
          match p text with
          | Some (m, g) =>
              f (re.mkMatch (str_take (S m) text) g) +:+ render p f m rest
          | None => String c (render p f 0 rest)
          end
      end
  end.

(** The state after the substitutions of the matches [ms], in order. *)
Definition substitute_all (file_name : string) (ms : list re.Match)
    (st : state) : state :=
  fold_left (fun s m => (_substitution file_name m s).2) ms st.

(** The entries of [reverse[file]] after recording the pairs
    (generated value, full match) of [gs], in order. *)
Definition record_all (gs : list (string * string))
    (d : dict (nat * gset string)) : dict (nat * gset string) :=
  fold_left
    (fun d gm =>
       dict_set gm.1
         match dict_get gm.1 d with
         | Some original => (original.1 + 1, original.2 ∪ {[gm.2]})
         | None => (1, {[gm.2]})
         end d)
    gs d.

(** The state one call of [_substitution] leaves, written out. *)
Definition substituted (file_name : string) (m : re.Match) (st : state) : state :=
  let e := self st in
  mkState
    (mkExpander (pattern e) (mapping e) (generator e) (un_generator e)
       (<[file_name :=
            record_all [(resolve e file_name m, re.group0 m)]
              (default [] (reverse e !! file_name))]> (reverse e))
       match mapped (mapping e) (re.group1 m), generator e,
             unmapped e !! file_name with
       | None, Some _, None => <[file_name := {[re.group1 m]}]> (unmapped e)
       | _, _, _ => unmapped e
       end)
    match mapped (mapping e) (re.group1 m), generator e with
    | None, None => (log st ++ [WarnCouldNotExpand (re.group0 m)])%list
    | _, _ => log st
    end
    (tape st).

(** Two expanders with the same construction arguments. *)
Definition same_config (e1 e2 : MacroExpander) : Prop :=
  pattern e1 = pattern e2 /\ mapping e1 = mapping e2 /\
  generator e1 = generator e2 /\ un_generator e1 = un_generator e2.

(** The token [un_expand] puts back for a generated value and the original
    it popped, and the case mode of its search; [ug] is the expander's
    [un_generator]. *)
Definition recovered (ug : option (string -> string -> string -> string))
    (file_name replacement original : string) : string :=
  match ug with
  | Some f => f file_name replacement original
  | None => original
  end.

Definition ignores_case (ug : option (string -> string -> string -> string))
    : bool :=
  match ug with
  | Some _ => true
  | None => false
  end.

(** Replacing the leftmost non-overlapping occurrences of the literal [x]
    in [text] by the fixed string [token]. *)
Definition replace_literal (ignore_case : bool) (x token text : string) : string :=
  match x with
  | "" => (re.subn_empty (map re.Lit (list_ascii_of_string token)) text).1
  | _ =>
      (re.subn_from ignore_case x
         (map re.Lit (list_ascii_of_string token)) 0 text).1
  end.

(** [restore ug file picks text]: [text] after replacing, pair by pair, each
    generated value by the token recovered from the original picked for it. *)
Definition restore (ug : option (string -> string -> string -> string))
    (file_name : string) (picks : list (string * string)) (text : string)
    : string :=
  fold_left
    (fun t ro =>
       replace_literal (ignores_case ug) ro.1
         (recovered ug file_name ro.1 ro.2) t)
    picks text.

(** The same with the picked originals themselves as tokens. *)
Definition restore_originals (ignore_case : bool)
    (picks : list (string * string)) (text : string) : string :=
  fold_left (fun t ro => replace_literal ignore_case ro.1 ro.2 t) picks text.

(** The warnings of the sanity pass. *)
Definition ambiguity_warnings (items : dict (nat * gset string))
    : list log_record :=
  omap (fun it : string * (nat * gset string) =>
          if Nat.ltb 1 (size it.2.2)
          then Some (WarnNotAccurate it.1 it.2.2) else None)
       items.

(** No recovered token of an entry is a template to be parsed. *)
Definition plain_tokens (ug : option (string -> string -> string -> string))
    (file_name : string) (items : dict (nat * gset string)) : Prop :=
  Forall (fun it : string * (nat * gset string) =>
            forall o, o ∈ it.2.2 ->
              has_char backslash (recovered ug file_name it.1 o) = false)
         items.

(** The element [set.pop()] removes when the tape starts with [n]. *)
Definition chosen (n : nat) (s : gset string) : option string :=
  match elements s with
  | [] => None
  | (x0 :: _) as l => Some (nth (n mod length l) l x0)
  end.

(** The loop of [un_expand] as a function of the entries, the text and the
    tape: the outcome, the entries as the loop leaves them and the rest of
    the tape. *)
Fixpoint consume (ug : option (string -> string -> string -> string))
    (file_name : string) (items : dict (nat * gset string)) (text : string)
    (tp : list nat) : (exn + string) * dict (nat * gset string) * list nat :=
  match items with
  | [] => (inr text, [], tp)
  | (replacement, original) :: items' =>
      match chosen (hd 0 tp) original.2 with
      | None => (inl KeyError, items, tp)
      | Some x =>
          let it := (replacement, (original.1, original.2 ∖ {[x]})) in
          match re.subn_escape (ignores_case ug) replacement
                  (recovered ug file_name replacement x) text with
          | inl err => (inl err, it :: items', tl tp)
          | inr result =>
              let '(r, rest, tp') :=
                consume ug file_name items' result.1 (tl tp) in
              (r, it :: rest, tp')
          end
      end
  end.

(** One entry after a pop: same key and count, one original fewer. *)
Definition popped (it it' : string * (nat * gset string)) : Prop :=
  it'.1 = it.1 /\ it'.2.1 = it.2.1 /\
  exists o, o ∈ it.2.2 /\ it'.2.2 = it.2.2 ∖ {[o]}.

(** ** Example configurations *)

(** [MacroExpander("\\$\\{(\\w+)\\}", {"foo": "BAR"})] *)
Definition foo_bar : MacroExpander :=
  __init__ re.macro_pattern (Some {[ "foo" := "BAR" ]}) None None.

(** [MacroExpander("\\$\\{(\\w+)\\}")]: neither mapping nor generator. *)
Definition bare : MacroExpander :=
  __init__ re.macro_pattern None None None.

(** As [foo_bar], with an un-generator that returns the original. *)
Definition foo_bar_ug : MacroExpander :=
  __init__ re.macro_pattern (Some {[ "foo" := "BAR" ]}) None
           (Some (fun _ _ original => original)).

(** An expander with the generator of [aurigae_macros] and an un-generator
    that answers the template [\1] for the original [${Foo}] and the original
    itself for any other. *)
Definition picky_un_generator (file_name replacement original : string)
    : string :=
  if String.eqb original "${Foo}" then String backslash "1" else original.

Definition picky : MacroExpander :=
  __init__ re.macro_pattern None (Some aurigae.generator)
           (Some picky_un_generator).

Definition fresh (e : MacroExpander) (tape : list nat) : state :=
  mkState e [] tape.

(** Two overlapping routes, to the objects at addresses 0 and 1. *)
Definition overlapping : MacroExpanderRouter :=
  mkRouter [("*.sql", 0); ("a.*", 1)].

Definition store0 : rstate :=
  mkRState (fun _ => aurigae.expander) [] [].

(** ** Measures and invariants of the reverse index *)

(** The occurrences counted by the entries of [reverse[file]]. *)
Definition total_count (d : dict (nat * gset string)) : nat :=
  foldr (fun it acc => it.2.1 + acc) 0 d.

(** Keys are distinct, and every entry holds at least one original and
    counts at least as many occurrences as it has originals. *)
Definition index_ok (d : dict (nat * gset string)) : Prop :=
  NoDup d.*1 /\
  Forall (fun it : string * (nat * gset string) =>
            1 <= size it.2.2 /\ size it.2.2 <= it.2.1) d.

(** Does the literal [x] occur somewhere in [text]? *)
Fixpoint occurs (ignore_case : bool) (x text : string) : bool :=
  re.starts_with ignore_case x text ||
  match text with
  | "" => false
  | String _ rest => occurs ignore_case x rest
  end.

(** The state of the expander at address [a], as a method sees it. *)
Definition view (rs : rstate) (a : nat) : state :=
  mkState (objects rs a) (rlog rs) (rtape rs).

(** * Properties *)

(** ** Strings *)

Lemma str_take_drop (n : nat) (s : string) : str_take n s +:+ str_drop n s = s.
Proof.
  revert s; induction n as [|n IH]; intros [|c s]; simpl; try reflexivity.
  change (String c (str_take n s +:+ str_drop n s) = String c s).
  by rewrite IH.
Qed.

(** ** One substitution *)

Lemma substitution_run (file_name : string) (m : re.Match) (st : state) :
  _substitution file_name m st
  = (inr (resolve (self st) file_name m), substituted file_name m st).
Proof.
  unfold _substitution, substituted, resolve, record_all,
    bind, get_self, put_self, warn, ret, set_reverse, set_unmapped.
  destruct st as [e lg tp]; simpl.
  destruct (mapped (mapping e) (re.group1 m)) as [v|]; simpl;
    [|destruct (generator e) as [g|] eqn:Hg; simpl;
      [destruct (unmapped e !! file_name); simpl|]];
    destruct (reverse e !! file_name) eqn:Hr; simpl;
    rewrite ?Hr, ?lookup_insert_eq, ?insert_insert_eq; simpl;
    rewrite ?Hr, ?Hg; reflexivity.
Qed.

Lemma substituted_config (file_name : string) (m : re.Match) (st : state) :
  same_config (self (substituted file_name m st)) (self st).
Proof. repeat split. Qed.

Lemma resolve_config (e1 e2 : MacroExpander) (file_name : string) (m : re.Match) :
  mapping e1 = mapping e2 -> generator e1 = generator e2 ->
  resolve e1 file_name m = resolve e2 file_name m.
Proof. intros Hm Hg. unfold resolve. by rewrite Hm, Hg. Qed.

Lemma substitute_all_cons (file_name : string) (m : re.Match)
    (ms : list re.Match) (st : state) :
  substitute_all file_name (m :: ms) st
  = substitute_all file_name ms (substituted file_name m st).
Proof. unfold substitute_all; simpl. by rewrite substitution_run. Qed.

Lemma substitute_all_config (file_name : string) (ms : list re.Match) (st : state) :
  same_config (self (substitute_all file_name ms st)) (self st).
Proof.
  revert st; induction ms as [|m ms IH]; intros st.
  - repeat split.
  - rewrite substitute_all_cons.
    destruct (IH (substituted file_name m st)) as (H1 & H2 & H3 & H4).
    repeat split; [rewrite H1 | rewrite H2 | rewrite H3 | rewrite H4];
      reflexivity.
Qed.

(** [sub] with [_substitution] as callback: the text is rendered with the
    resolved values and the state goes through one substitution per match. *)
Lemma sub_from_run (file_name : string) (text : string) :
  forall (skip : nat) (st : state),
    re.sub_from (pattern (self st)) (_substitution file_name) skip text st
    = (inr (render (pattern (self st)) (resolve (self st) file_name) skip text),
       substitute_all file_name
         (re.findall_from (pattern (self st)) skip text) st).
Proof.
  induction text as [|c rest IH]; intros skip st; simpl.
  - reflexivity.
  - destruct skip as [|k].
    + destruct (pattern (self st) (String c rest)) as [[m g]|] eqn:Hp.
      * unfold bind. rewrite substitution_run.
        set (mt := re.mkMatch _ _).
        change (pattern (self st)) with (pattern (self (substituted file_name mt st))).
        rewrite IH. simpl. rewrite substitution_run. reflexivity.
      * unfold bind. rewrite IH. reflexivity.
    + apply IH.
Qed.

Lemma expand_run (file_name text : string) (st : state) :
  expand file_name text st
  = (inr (render (pattern (self st)) (resolve (self st) file_name) 0 text),
     substitute_all file_name (re.findall (pattern (self st)) text) st).
Proof. unfold expand, bind, get_self, re.sub. simpl. apply sub_from_run. Qed.

(** ** The loop of [un_expand] *)

Lemma sanity_check_items_run (items : dict (nat * gset string)) (st : state) :
  _sanity_check_items items st
  = (inr tt, mkState (self st) (log st ++ ambiguity_warnings items) (tape st)).
Proof.
  revert st; induction items as [|[r [n s]] items IH]; intros [e lg tp]; simpl.
  - unfold ret. by rewrite app_nil_r.
  - unfold bind, ambiguity_warnings; simpl.
    destruct (Nat.ltb 1 (size s)); simpl; rewrite IH; simpl.
    + by rewrite <- app_assoc.
    + reflexivity.
Qed.

Lemma pop_run (file_name : string) (i : nat) (replacement : string)
    (original : nat * gset string) (st : state) :
  pop file_name i replacement original st
  = match chosen (hd 0 (tape st)) original.2 with
    | None => (inl KeyError, st)
    | Some x =>
        (inr x,
         mkState
           (set_reverse (self st)
              (<[file_name :=
                   <[i := (replacement, (original.1, original.2 ∖ {[x]}))]>
                     (default [] (reverse (self st) !! file_name))]>
                 (reverse (self st))))
           (log st) (tl (tape st)))
    end.
Proof.
  unfold pop, chosen. destruct (elements original.2) as [|x0 l]; [reflexivity|].
  destruct st as [e lg [|n tp]]; reflexivity.
Qed.

(** The state is written back entry by entry: after the entries [done],
    position [length done] is the next one to shrink. *)
Local Ltac next_entry done it IH Hug :=
  replace (S (length done)) with (length (done ++ [it])%list)
    by (rewrite length_app; simpl; lia);
  rewrite IH; simpl;
  [ rewrite Hug;
    destruct (consume _ _ _ _ _) as [[? ?] ?];
    unfold set_reverse; simpl; rewrite insert_insert_eq;
    by rewrite <- app_assoc
  | rewrite lookup_insert_eq; by rewrite <- app_assoc ].

Lemma un_expand_items_run (file_name : string)
    (items : dict (nat * gset string)) :
  forall (done : dict (nat * gset string)) (text : string) (st : state),
    reverse (self st) !! file_name = Some (done ++ items)%list ->
    un_expand_items file_name (length done) items text st
    = let '(r, items', tp') :=
        consume (un_generator (self st)) file_name items text (tape st) in
      (r, mkState
            (set_reverse (self st)
               (<[file_name := (done ++ items')%list]> (reverse (self st))))
            (log st) tp').
Proof.
  induction items as [|[r original] items IH]; intros done text st Hrev.
  - simpl. unfold ret. f_equal. destruct st as [[] lg tp]; simpl in *.
    unfold set_reverse; simpl. by rewrite insert_id.
  - simpl. unfold bind. rewrite pop_run.
    destruct (chosen (hd 0 (tape st)) original.2) as [x|] eqn:Hx.
    + rewrite Hrev. simpl.
      rewrite insert_app_r_alt by lia. rewrite Nat.sub_diag. simpl.
      set (it := (r, (original.1, original.2 ∖ {[x]}))).
      destruct (un_generator (self st)) as [ug|] eqn:Hug; simpl.
      * destruct (re.subn_escape true r (ug file_name r x) text)
          as [err|result]; simpl; [reflexivity|].
        next_entry done it IH Hug.
      * destruct (re.subn_escape false r x text) as [err|result]; simpl;
          [reflexivity|].
        next_entry done it IH Hug.
    + f_equal. destruct st as [[] lg tp]; simpl in *.
      unfold set_reverse; simpl. by rewrite insert_id.
Qed.

(** [un_expand] on a file that has entries: the warnings of the sanity pass,
    then the loop. *)
Lemma un_expand_run (file_name text : string) (st : state)
    (items : dict (nat * gset string)) :
  reverse (self st) !! file_name = Some items ->
  un_expand file_name text st
  = let '(r, items', tp') :=
      consume (un_generator (self st)) file_name items text (tape st) in
    (r, mkState
          (set_reverse (self st) (<[file_name := items']> (reverse (self st))))
          (log st ++ ambiguity_warnings items) tp').
Proof.
  intros Hrev. unfold un_expand, _sanity_check, bind, get_self.
  cbn beta. rewrite Hrev. cbn beta iota. rewrite Hrev.
  rewrite sanity_check_items_run. simpl. rewrite Hrev. simpl.
  apply (un_expand_items_run file_name items [] text
           (mkState (self st) (log st ++ ambiguity_warnings items) (tape st))).
  exact Hrev.
Qed.

Lemma subn_escape_plain (ignore_case : bool) (x token text : string) :
  has_char backslash token = false ->
  exists n, re.subn_escape ignore_case x token text
            = inr (replace_literal ignore_case x token text, n).
Proof.
  intros Hplain. unfold re.subn_escape, re.compile_template, replace_literal.
  rewrite Hplain. destruct x as [|c x].
  - destruct (re.subn_empty _ text) as [out n]. by exists n.
  - destruct (re.subn_from _ _ _ _ text) as [out n]. by exists n.
Qed.

Lemma chosen_elem (n : nat) (s : gset string) (x : string) :
  chosen n s = Some x -> x ∈ s.
Proof.
  unfold chosen. destruct (elements s) as [|x0 l] eqn:Hel; [done|].
  assert (n mod length (x0 :: l) < length (x0 :: l)) as Hlt
    by (apply Nat.mod_upper_bound; done).
  revert Hlt. generalize (n mod length (x0 :: l)). intros k Hlt [= <-].
  apply elem_of_elements. rewrite Hel.
  apply list_elem_of_In. destruct k as [|k]; [by left|right].
  apply nth_In. simpl in Hlt. lia.
Qed.

Lemma chosen_None (n : nat) (s : gset string) :
  chosen n s = None <-> s = ∅.
Proof.
  unfold chosen. split.
  - destruct (elements s) as [|x0 l] eqn:Hel; [|done].
    intros _. by apply elements_empty_inv, leibniz_equiv in Hel.
  - intros ->. by rewrite elements_empty.
Qed.

Lemma consume_plain (ug : option (string -> string -> string -> string))
    (file_name : string) (items : dict (nat * gset string)) :
  forall (text : string) (tp : list nat),
    Forall (fun it : string * (nat * gset string) => it.2.2 <> ∅) items ->
    plain_tokens ug file_name items ->
    exists picks items' tp',
      consume ug file_name items text tp
      = (inr (restore ug file_name (zip items.*1 picks) text), items', tp') /\
      Forall2 (fun (it : string * (nat * gset string)) o => o ∈ it.2.2)
              items picks /\
      Forall2 popped items items'.
Proof.
  induction items as [|[r [c s]] items IH]; intros text tp Hne Hplain.
  - exists [], [], tp. repeat split; constructor.
  - inversion Hne as [|? ? Hs Hne']; subst.
    inversion Hplain as [|? ? Hp Hplain']; subst. simpl in *.
    destruct (chosen (hd 0 tp) s) as [x|] eqn:Hx.
    2:{ by apply chosen_None in Hx. }
    pose proof (chosen_elem _ _ _ Hx) as Hin.
    destruct (subn_escape_plain (ignores_case ug) r
                (recovered ug file_name r x) text (Hp x Hin)) as [n ->].
    cbn [fst].
    destruct (IH (replace_literal (ignores_case ug) r
                    (recovered ug file_name r x) text) (tl tp) Hne' Hplain')
      as (picks & items' & tp' & -> & Hpicks & Hpop).
    exists (x :: picks), ((r, (c, s ∖ {[x]})) :: items'), tp'.
    repeat split; [by constructor|].
    constructor; [|done]. repeat split. by exists x.
Qed.

Lemma consume_returns (ug : option (string -> string -> string -> string))
    (file_name : string) (items : dict (nat * gset string)) :
  forall (text : string) (tp : list nat) (out : string)
         (items' : dict (nat * gset string)) (tp' : list nat),
    consume ug file_name items text tp = (inr out, items', tp') ->
    Forall2 popped items items'.
Proof.
  induction items as [|[r [c s]] items IH]; intros text tp out items' tp'; simpl.
  - intros [= _ <- _]. constructor.
  - destruct (chosen (hd 0 tp) s) as [x|] eqn:Hx; [|done].
    destruct (re.subn_escape _ r _ text) as [err|result]; [done|].
    destruct (consume ug file_name items result.1 (tl tp))
      as [[r' rest] tp''] eqn:Hc.
    intros [= -> <- ->].
    constructor; [|by eapply IH].
    repeat split. exists x. split; [by eapply chosen_elem|done].
Qed.

Lemma consume_empty (ug : option (string -> string -> string -> string))
    (file_name : string) (items : dict (nat * gset string)) :
  forall (text : string) (tp : list nat),
    Exists (fun it : string * (nat * gset string) => it.2.2 = ∅) items ->
    plain_tokens ug file_name items ->
    (consume ug file_name items text tp).1.1 = inl KeyError.
Proof.
  induction items as [|[r [c s]] items IH]; intros text tp Hex Hplain.
  - inversion Hex.
  - inversion Hplain as [|? ? Hp Hplain']; subst. simpl in *.
    destruct (chosen (hd 0 tp) s) as [x|] eqn:Hx; [|done].
    pose proof (chosen_elem _ _ _ Hx) as Hin.
    destruct (subn_escape_plain (ignores_case ug) r
                (recovered ug file_name r x) text (Hp x Hin)) as [n ->].
    cbn [fst].
    inversion Hex as [? ? Hs|? ? Hex']; subst.
    { simpl in Hs; subst s. by apply not_elem_of_empty in Hin. }
    specialize (IH (replace_literal (ignores_case ug) r
                      (recovered ug file_name r x) text) (tl tp) Hex' Hplain').
    simpl. destruct (consume _ _ _ _ _) as [[r' rest] tp']. exact IH.
Qed.

Lemma popped_plain (ug : option (string -> string -> string -> string))
    (file_name : string) (items items' : dict (nat * gset string)) :
  Forall2 popped items items' ->
  plain_tokens ug file_name items -> plain_tokens ug file_name items'.
Proof.
  unfold plain_tokens. induction 1 as [|it it' items items' Hp _ IH].
  - constructor.
  - intros Hpl. inversion Hpl as [|? ? Hit Hrest]; subst.
    constructor; [|by apply IH].
    destruct Hp as (Hk & _ & o & _ & Hs). intros o' Ho'.
    rewrite Hk. apply Hit. rewrite Hs in Ho'.
    by apply elem_of_difference in Ho' as [? _].
Qed.

Lemma popped_singleton (items items' : dict (nat * gset string)) :
  Forall2 popped items items' ->
  Exists (fun it : string * (nat * gset string) => size it.2.2 = 1) items ->
  Exists (fun it : string * (nat * gset string) => it.2.2 = ∅) items'.
Proof.
  induction 1 as [|it it' items items' Hp _ IH]; intros Hex.
  - inversion Hex.
  - inversion Hex as [? ? Hs|? ? Hex']; subst.
    + apply Exists_cons_hd.
      destruct Hp as (_ & _ & o & Ho & ->).
      apply size_1_elem_of in Hs as [y Hy]. apply leibniz_equiv in Hy.
      rewrite Hy in *. apply elem_of_singleton in Ho as ->.
      apply difference_diag_L.
    + apply Exists_cons_tl. by apply IH.
Qed.

Lemma chosen_singleton (n : nat) (x : string) : chosen n {[ x ]} = Some x.
Proof.
  unfold chosen. rewrite elements_singleton. cbn [length].
  by rewrite Nat.mod_1_r.
Qed.

(** ** Round trip of the documented example *)

Lemma foo_bar_expand (file_name : string) (lg : list log_record) (tp : list nat) :
  expand file_name "select ${foo} from t" (mkState foo_bar lg tp)
  = (inr "select BAR from t",
     mkState
       (set_reverse foo_bar {[ file_name := [("BAR", (1, {[ "${foo}" ]}))] ]})
       lg tp).
Proof.
  rewrite expand_run. f_equal.
  change (re.findall _ _) with [re.mkMatch "${foo}" "foo"].
  rewrite substitute_all_cons.
  unfold substitute_all, substituted, set_reverse; simpl.
  rewrite lookup_empty. reflexivity.
Qed.

(** C1.  On a fresh expander with pattern [\$\{(\w+)\}], mapping
    [{"foo": "BAR"}] and neither generator nor un-generator,
    [expand(file, "select ${foo} from t")] returns ["select BAR from t"], and
    [un_expand(file, ...)] applied to that output returns
    ["select ${foo} from t"], whatever the file name is and whatever was
    logged before. *)
Theorem round_trip_foo_bar (file_name : string) (lg : list log_record)
    (tp : list nat) :
  let r := expand file_name "select ${foo} from t" (mkState foo_bar lg tp) in
  r.1 = inr "select BAR from t" /\
  (un_expand file_name "select BAR from t" r.2).1 = inr "select ${foo} from t".
Proof.
  cbv zeta. rewrite foo_bar_expand. split; [reflexivity|].
  cbn [fst snd].
  erewrite un_expand_run by apply lookup_singleton_eq.
  cbn [consume self tape set_reverse un_generator snd].
  rewrite chosen_singleton. reflexivity.
Qed.

(** ** The reverse index after [expand] *)

Lemma dict_get_set_eq {V} (k : string) (v : V) (d : dict V) :
  dict_get k (dict_set k v d) = Some v.
Proof.
  induction d as [|[k' v'] d IH]; simpl.
  - by rewrite String.eqb_refl.
  - destruct (String.eqb k k') eqn:Hk; simpl; rewrite Hk; [done|apply IH].
Qed.

Lemma dict_get_set_ne {V} (k k' : string) (v : V) (d : dict V) :
  k <> k' -> dict_get k (dict_set k' v d) = dict_get k d.
Proof.
  intros Hne. induction d as [|[k0 v0] d IH]; simpl.
  - by apply String.eqb_neq in Hne as ->.
  - destruct (String.eqb k' k0) eqn:Hk'; simpl.
    + apply String.eqb_eq in Hk' as <-.
      by apply String.eqb_neq in Hne as ->.
    + by rewrite IH.
Qed.

Lemma record_all_app (gs1 gs2 : list (string * string))
    (d : dict (nat * gset string)) :
  record_all (gs1 ++ gs2) d = record_all gs2 (record_all gs1 d).
Proof. unfold record_all. apply fold_left_app. Qed.

Lemma substitute_all_reverse (file_name : string) (ms : list re.Match) :
  forall st : state,
    reverse (self (substitute_all file_name ms st)) !! file_name
    = match ms with
      | [] => reverse (self st) !! file_name
      | _ =>
          Some (record_all
                  (map (fun m => (resolve (self st) file_name m, re.group0 m)) ms)
                  (default [] (reverse (self st) !! file_name)))
      end.
Proof.
  induction ms as [|m ms IH]; intros st; [reflexivity|].
  rewrite substitute_all_cons, IH.
  destruct ms as [|m' ms].
  - unfold substituted; simpl. by rewrite lookup_insert_eq.
  - f_equal. unfold substituted at 2; cbn [self reverse].
    rewrite lookup_insert_eq. reflexivity.
Qed.

(** An entry for the generated value [g] that counts at least one
    occurrence and holds the original [o]. *)
Lemma record_all_recorded (gs : list (string * string)) :
  forall (d : dict (nat * gset string)) (g o : string),
    (g, o) ∈ gs ->
    exists n s, dict_get g (record_all gs d) = Some (n, s) /\ 0 < n /\ o ∈ s.
Proof.
  induction gs as [|[g' o'] gs IH] using rev_ind; intros d g o Hin.
  - by apply elem_of_nil in Hin.
  - rewrite record_all_app. apply elem_of_app in Hin as [Hin|Hin].
    + destruct (IH d g o Hin) as (n & s & Hget & Hn & Ho).
      unfold record_all at 1; simpl.
      destruct (decide (g = g')) as [->|Hne].
      * rewrite dict_get_set_eq, Hget. simpl.
        exists (n + 1), (s ∪ {[o']}). repeat split; [lia|].
        apply elem_of_union. by left.
      * rewrite dict_get_set_ne by done. by exists n, s.
    + apply list_elem_of_singleton in Hin as [= -> ->].
      unfold record_all at 1; simpl. rewrite dict_get_set_eq.
      destruct (dict_get g' (record_all gs d)) as [[n s]|]; simpl.
      * exists (n + 1), (s ∪ {[o']}). repeat split; [lia|].
        apply elem_of_union. right. by apply elem_of_singleton.
      * exists 1, {[o']}. repeat split; [lia|]. by apply elem_of_singleton.
Qed.

Lemma render_identity (p : re.Pattern) (f : re.Match -> string) (text : string) :
  (forall m, f m = re.group0 m) ->
  forall skip : nat, render p f skip text = str_drop skip text.
Proof.
  intros Hf. induction text as [|c rest IH]; intros [|k]; simpl;
    try reflexivity.
  - destruct (p (String c rest)) as [[m g]|].
    + rewrite Hf, IH. simpl.
      change (String c (str_take m rest +:+ str_drop m rest) = String c rest).
      by rewrite str_take_drop.
    + rewrite IH. reflexivity.
  - apply IH.
Qed.

Lemma substitute_all_log_unresolved (file_name : string) (ms : list re.Match) :
  forall st : state,
    mapping (self st) = None -> generator (self st) = None ->
    log (substitute_all file_name ms st)
    = (log st ++ map (fun m => WarnCouldNotExpand (re.group0 m)) ms)%list.
Proof.
  induction ms as [|m ms IH]; intros st Hm Hg.
  - simpl. by rewrite app_nil_r.
  - rewrite substitute_all_cons, IH by done.
    unfold substituted; simpl. rewrite Hm, Hg. simpl.
    by rewrite <- app_assoc.
Qed.

(** ** Resolution of one occurrence *)

(** C2.  The resolution order of an occurrence is: the static mapping, else
    the generator, else the matched text with a warning ([substitution_run]).
    On the generator path the macro name is to be recorded into
    [unmapped[file]]; the code computes a union and drops it, so when the
    file already has an entry, the entry is left as it was: the generator
    supplies the value and the name is not recorded. *)
Theorem substitution_generator_keeps_unmapped (file_name : string)
    (m : re.Match) (st : state) (g : string -> string -> string)
    (names : gset string) :
  mapped (mapping (self st)) (re.group1 m) = None ->
  generator (self st) = Some g ->
  unmapped (self st) !! file_name = Some names ->
  (_substitution file_name m st).1 = inr (g file_name (re.group1 m)) /\
  unmapped (self (_substitution file_name m st).2) !! file_name = Some names.
Proof.
  intros Hm Hg Hu. rewrite substitution_run. simpl.
  unfold resolve. rewrite Hm, Hg, Hu. done.
Qed.

Lemma substitution_generator_keeps_unmapped_witness :
  let st := (expand "q.sql" "${a}" (fresh aurigae.expander [])).2 in
  let m := re.mkMatch "${b}" "b" in
  (_substitution "q.sql" m st).1 = inr "PARAM_b_PARAM" /\
  unmapped (self (_substitution "q.sql" m st).2) !! "q.sql" = Some {[ "a" ]}.
Proof.
  apply (substitution_generator_keeps_unmapped "q.sql" (re.mkMatch "${b}" "b")
           (expand "q.sql" "${a}" (fresh aurigae.expander [])).2
           aurigae.generator {[ "a" ]});
    vm_compute; reflexivity.
Defined.

(** C3.  [unmapped[file]] after [expand] is meant to hold every macro name
    resolved through the generator.  Expanding ["${a} ${b}"] with the
    generator of [aurigae_macros] resolves both names through the generator
    and leaves only the first in [unmapped["q.sql"]]. *)
Theorem expand_unmapped_first_name_only :
  let r := expand "q.sql" "${a} ${b}" (fresh aurigae.expander []) in
  r.1 = inr "PARAM_a_PARAM PARAM_b_PARAM" /\
  unmapped (self r.2) !! "q.sql" = Some {[ "a" ]} /\
  "b" ∉ default ∅ (unmapped (self r.2) !! "q.sql").
Proof.
  assert (unmapped (self (expand "q.sql" "${a} ${b}"
                            (fresh aurigae.expander [])).2) !! "q.sql"
          = Some {[ "a" ]}) as Hu by (vm_compute; reflexivity).
  split; [vm_compute; reflexivity|]. split; [exact Hu|].
  cbv zeta. rewrite Hu. cbn [default from_option id].
  by intros [=]%elem_of_singleton.
Qed.

(** ** Expansion without mapping and generator *)

(** With neither mapping nor generator, ["${foo}"] is left in the text and
    yet gets its entry in [reverse["a.sql"]]: the two halves of "unchanged
    and not indexed" do not hold together. *)
Lemma unresolved_macro_is_indexed :
  let r := expand "a.sql" "x ${foo}" (fresh bare []) in
  ~ (r.1 = inr "x ${foo}" /\
     dict_get "${foo}" (default [] (reverse (self r.2) !! "a.sql")) = None).
Proof.
  assert (dict_get "${foo}"
            (default [] (reverse (self (expand "a.sql" "x ${foo}"
                                          (fresh bare [])).2) !! "a.sql"))
          = Some (1, {[ "${foo}" ]})) as Hget by (vm_compute; reflexivity).
  intros r [_ H]. subst r. rewrite Hget in H. discriminate.
Qed.

(** C4 (amended).  When the expander has neither a mapping nor a generator,
    [expand] returns the text unchanged, emits one warning per occurrence,
    and records every occurrence in [reverse[file]] under its own matched
    text: the entry counts at least one occurrence and holds the matched
    text among its originals. *)
Theorem expand_unresolved (file_name text : string) (st : state) :
  mapping (self st) = None ->
  generator (self st) = None ->
  let r := expand file_name text st in
  r.1 = inr text /\
  log r.2 = (log st ++ map (fun m => WarnCouldNotExpand (re.group0 m))
                           (re.findall (pattern (self st)) text))%list /\
  forall m, m ∈ re.findall (pattern (self st)) text ->
    exists n s,
      dict_get (re.group0 m) (default [] (reverse (self r.2) !! file_name))
      = Some (n, s) /\ 0 < n /\ re.group0 m ∈ s.
Proof.
  intros Hm Hg r. subst r. rewrite expand_run. cbn [fst snd].
  assert (forall m, resolve (self st) file_name m = re.group0 m) as Hres.
  { intros m. unfold resolve. by rewrite Hm, Hg. }
  repeat split.
  - by rewrite render_identity.
  - by apply substitute_all_log_unresolved.
  - intros m Hin. rewrite substitute_all_reverse.
    destruct (re.findall (pattern (self st)) text) as [|m0 ms] eqn:Hms.
    { by apply elem_of_nil in Hin. }
    cbn [default]. apply record_all_recorded.
    apply list_elem_of_fmap. exists m. by rewrite Hres.
Qed.

Lemma expand_unresolved_witness :
  let r := expand "a.sql" "x ${foo}" (fresh bare []) in
  r.1 = inr "x ${foo}" /\
  log r.2 = [WarnCouldNotExpand "${foo}"] /\
  forall m, m ∈ re.findall re.macro_pattern "x ${foo}" ->
    exists n s,
      dict_get (re.group0 m) (default [] (reverse (self r.2) !! "a.sql"))
      = Some (n, s) /\ 0 < n /\ re.group0 m ∈ s.
Proof.
  apply (expand_unresolved "a.sql" "x ${foo}" (fresh bare []));
    reflexivity.
Defined.

(** ** Determinism of [expand] *)

(** C9.  With a fixed static mapping and no generator, [expand] on a file
    that has no entry yet gives the same output text and the same
    [reverse[file]] in any two expanders built from the same pattern and
    mapping, whatever their other files, logs and tapes hold. *)
Theorem expand_deterministic (file_name text : string) (st1 st2 : state) :
  pattern (self st1) = pattern (self st2) ->
  mapping (self st1) = mapping (self st2) ->
  generator (self st1) = None ->
  generator (self st2) = None ->
  reverse (self st1) !! file_name = None ->
  reverse (self st2) !! file_name = None ->
  (expand file_name text st1).1 = (expand file_name text st2).1 /\
  reverse (self (expand file_name text st1).2) !! file_name
  = reverse (self (expand file_name text st2).2) !! file_name.
Proof.
  intros Hp Hm Hg1 Hg2 Hr1 Hr2. rewrite !expand_run. cbn [fst snd].
  assert (forall m, resolve (self st1) file_name m
                    = resolve (self st2) file_name m) as Hres.
  { intros m. apply resolve_config; congruence. }
  rewrite !substitute_all_reverse, Hp, Hr1, Hr2. split.
  - f_equal. generalize 0. induction text as [|c rest IH]; intros [|k];
      simpl; try done.
    destruct (pattern (self st2) (String c rest)) as [[n g]|];
      by rewrite ?Hres, IH.
  - destruct (re.findall (pattern (self st2)) text) as [|m0 ms]; [done|].
    do 2 f_equal. apply map_ext. intros m. by rewrite Hres.
Qed.

Lemma expand_deterministic_witness :
  let st1 := fresh foo_bar [] in
  let st2 :=
    (expand "b.sql" "${x} ${foo}" (mkState foo_bar [WarnCouldNotExpand "y"] [3])).2 in
  (expand "a.sql" "${foo} ${z}" st1).1 = (expand "a.sql" "${foo} ${z}" st2).1 /\
  reverse (self (expand "a.sql" "${foo} ${z}" st1).2) !! "a.sql"
  = reverse (self (expand "a.sql" "${foo} ${z}" st2).2) !! "a.sql".
Proof.
  apply (expand_deterministic "a.sql" "${foo} ${z}" (fresh foo_bar [])
           (expand "b.sql" "${x} ${foo}"
              (mkState foo_bar [WarnCouldNotExpand "y"] [3])).2);
    vm_compute; reflexivity.
Defined.

(** ** Routing *)

Section RouterFacts.

Variable fnmatch : string -> string -> bool.

Lemma choose_loop_length (file_name : string) (routes : dict nat) :
  forall acc : option nat * option string * list string,
    length (fold_left
              (fun acc route =>
                 if fnmatch file_name route.1
                 then (Some route.2, Some route.1, (acc.2 ++ [file_name])%list)
                 else acc)
              routes acc).2
    = length acc.2
      + length (List.filter (fun route => fnmatch file_name route.1) routes).
Proof.
  induction routes as [|[p a] routes IH]; intros acc; simpl.
  - lia.
  - destruct (fnmatch file_name p); rewrite IH; simpl.
    + rewrite length_app. simpl. lia.
    + lia.
Qed.

Lemma choose_loop_none (file_name : string) (routes : dict nat) :
  Forall (fun route : string * nat => fnmatch file_name route.1 = false) routes ->
  choose_loop fnmatch file_name routes = (None, None, []).
Proof.
  intros Hnone. unfold choose_loop.
  generalize (@None nat, @None string, @nil string).
  induction Hnone as [|[pat a] routes Hpat _ IH]; intros acc; simpl.
  - reflexivity.
  - simpl in Hpat. rewrite Hpat. apply IH.
Qed.

End RouterFacts.

(** C5.  A file name that matches more than one registered pattern should
    get a warning and the expander of the last matching pattern.  In the
    code the warning goes through the undefined name [loggin]:
    [choose_expander] raises [NameError], logs nothing and returns no
    expander. *)
Theorem choose_expander_ambiguous_raises (fnmatch : string -> string -> bool)
    (router : MacroExpanderRouter) (file_name : string) (rs : rstate) :
  1 < length (List.filter (fun route => fnmatch file_name route.1)
                          (all_macros router)) ->
  choose_expander fnmatch router file_name rs = (inl NameError, rs).
Proof.
  intros Hlen. unfold choose_expander.
  pose proof (choose_loop_length fnmatch file_name (all_macros router)
                (None, None, [])) as Hl.
  fold (choose_loop fnmatch file_name (all_macros router)) in Hl.
  destruct (choose_loop fnmatch file_name (all_macros router))
    as [[chosen_expander chosen_pattern] matches].
  simpl in Hl.
  destruct (Nat.eqb_spec (length matches) 0) as [H0|_]; [lia|].
  destruct (Nat.ltb_spec 1 (length matches)) as [_|H1]; [reflexivity|lia].
Qed.

Lemma choose_expander_ambiguous_raises_witness :
  1 < length (List.filter (fun route => glob_fnmatch "a.sql" route.1)
                          (all_macros overlapping)) /\
  choose_expander glob_fnmatch overlapping "a.sql" store0
  = (inl NameError, store0).
Proof.
  split; [vm_compute; lia|].
  apply (choose_expander_ambiguous_raises glob_fnmatch overlapping "a.sql" store0).
  vm_compute; lia.
Defined.

(** C8.  [Router.expand] and [Router.un_expand] on a file name that matches
    no registered pattern, and [MacroExpander.un_expand] on a file that has
    no entry in [reverse], return the text they were given, raise nothing
    and leave the whole state as it was. *)
Theorem passthrough_is_noop (fnmatch : string -> string -> bool)
    (router : MacroExpanderRouter) (file_name text : string) (rs : rstate)
    (file_name' text' : string) (st : state) :
  Forall (fun route : string * nat => fnmatch file_name route.1 = false)
         (all_macros router) ->
  reverse (self st) !! file_name' = None ->
  Router_expand fnmatch router file_name text rs = (inr text, rs) /\
  Router_un_expand fnmatch router file_name text rs = (inr text, rs) /\
  un_expand file_name' text' st = (inr text', st).
Proof.
  intros Hnone Hrev.
  unfold Router_expand, Router_un_expand, choose_expander, bind.
  rewrite (choose_loop_none fnmatch file_name _ Hnone). simpl.
  repeat split.
  unfold un_expand, bind, get_self. by rewrite Hrev.
Qed.

Lemma passthrough_is_noop_witness :
  let st := (expand "q.sql" "${a}" (fresh aurigae.expander [])).2 in
  Router_expand glob_fnmatch aurigae.aurigae_macro_router
    "readme.md" "see ${a}" store0 = (inr "see ${a}", store0) /\
  Router_un_expand glob_fnmatch aurigae.aurigae_macro_router
    "readme.md" "see ${a}" store0 = (inr "see ${a}", store0) /\
  un_expand "p.sql" "PARAM_a_PARAM" st = (inr "PARAM_a_PARAM", st).
Proof.
  apply (passthrough_is_noop glob_fnmatch aurigae.aurigae_macro_router
           "readme.md" "see ${a}" store0 "p.sql" "PARAM_a_PARAM"
           (expand "q.sql" "${a}" (fresh aurigae.expander [])).2).
  - repeat constructor.
  - vm_compute; reflexivity.
Defined.

(** ** Un-expansion *)

(** C6.  Every case-insensitive occurrence of a generated value should be
    replaced, with or without an un-generator.  Without one, the search is
    case-sensitive: after [expand("a.sql", "${foo}")] with mapping
    [{"foo": "BAR"}], [un_expand("a.sql", "bar BAR")] leaves ["bar"] in
    place; with an un-generator that returns the original, both occurrences
    are replaced. *)
Theorem un_expand_case_sensitive_without_un_generator :
  (un_expand "a.sql" "bar BAR"
     (expand "a.sql" "${foo}" (fresh foo_bar [])).2).1 = inr "bar ${foo}" /\
  (un_expand "a.sql" "bar BAR"
     (expand "a.sql" "${foo}" (fresh foo_bar_ug [])).2).1 = inr "${foo} ${foo}".
Proof. split; vm_compute; reflexivity. Qed.

Lemma aurigae_collision_index :
  reverse (self (expand "q.sql" "${Foo} ${foo}"
                   (fresh aurigae.expander [])).2) !! "q.sql"
  = Some [("PARAM_foo_PARAM", (2, {[ "${Foo}"; "${foo}" ]}))].
Proof. vm_compute; reflexivity. Qed.

(** With the expander of [aurigae_macros], the text that comes back holds
    the un-generator's ["{foo}"], which is none of the recorded originals,
    whichever of them is picked and whatever the case mode. *)
Lemma aurigae_un_expand_not_an_original :
  let st := (expand "q.sql" "${Foo} ${foo}" (fresh aurigae.expander [])).2 in
  let text := "PARAM_foo_PARAM PARAM_foo_PARAM" in
  ~ exists (ignore_case : bool) (o : string),
      o ∈ ({[ "${Foo}"; "${foo}" ]} : gset string) /\
      (un_expand "q.sql" text st).1
      = inr (restore_originals ignore_case [("PARAM_foo_PARAM", o)] text).
Proof.
  assert ((un_expand "q.sql" "PARAM_foo_PARAM PARAM_foo_PARAM"
             (expand "q.sql" "${Foo} ${foo}" (fresh aurigae.expander [])).2).1
          = inr "{foo} {foo}") as Hout by (vm_compute; reflexivity).
  intros st text (ic & o & Ho & Heq). subst st text.
  rewrite Hout in Heq.
  apply elem_of_union in Ho as [Ho|Ho]; apply elem_of_singleton in Ho as ->;
    destruct ic; vm_compute in Heq; discriminate.
Qed.

(** C7 (amended).  For a file that has entries in [reverse], none of them
    consumed yet, and whose recovered tokens contain no backslash, a call of
    [un_expand] emits one warning for every generated value that has more
    than one original, raises nothing, and returns the text in which, entry
    by entry, the occurrences of the generated value are replaced by the
    recovered token of one of its recorded originals: that original itself
    when there is no un-generator, the un-generator's result for it
    otherwise. *)
Theorem un_expand_first_call (file_name text : string) (st : state)
    (items : dict (nat * gset string)) :
  reverse (self st) !! file_name = Some items ->
  Forall (fun it : string * (nat * gset string) => it.2.2 <> ∅) items ->
  plain_tokens (un_generator (self st)) file_name items ->
  exists (picks : list string) (st' : state),
    un_expand file_name text st
    = (inr (restore (un_generator (self st)) file_name
              (zip items.*1 picks) text), st') /\
    Forall2 (fun (it : string * (nat * gset string)) o => o ∈ it.2.2)
            items picks /\
    log st' = (log st ++ ambiguity_warnings items)%list.
Proof.
  intros Hrev Hne Hplain. rewrite (un_expand_run _ _ _ _ Hrev).
  destruct (consume_plain _ file_name items text (tape st) Hne Hplain)
    as (picks & items' & tp' & -> & Hpicks & _).
  eexists picks, _. split; [reflexivity|]. split; [exact Hpicks|]. reflexivity.
Qed.

Lemma un_expand_first_call_witness :
  let st := (expand "q.sql" "${Foo} ${foo}" (fresh aurigae.expander [])).2 in
  let items := [("PARAM_foo_PARAM", (2, ({[ "${Foo}"; "${foo}" ]} : gset string)))] in
  exists (picks : list string) (st' : state),
    un_expand "q.sql" "PARAM_foo_PARAM PARAM_FOO_PARAM" st
    = (inr (restore (Some aurigae.un_generator) "q.sql"
              (zip items.*1 picks) "PARAM_foo_PARAM PARAM_FOO_PARAM"), st') /\
    Forall2 (fun (it : string * (nat * gset string)) o => o ∈ it.2.2)
            items picks /\
    log st' = ([] ++ ambiguity_warnings items)%list.
Proof.
  apply (un_expand_first_call "q.sql" "PARAM_foo_PARAM PARAM_FOO_PARAM"
           (expand "q.sql" "${Foo} ${foo}" (fresh aurigae.expander [])).2
           [("PARAM_foo_PARAM", (2, {[ "${Foo}"; "${foo}" ]}))]).
  - vm_compute; reflexivity.
  - constructor; [|constructor]. simpl. intros H.
    assert ("${foo}" ∈ (∅ : gset string)) as Hin
      by (rewrite <- H; apply elem_of_union; right; by apply elem_of_singleton).
    by apply not_elem_of_empty in Hin.
  - constructor; [|constructor]. intros o _. reflexivity.
Defined.

Lemma picky_index :
  reverse (self (expand "q.sql" "${Foo} ${foo} ${bar}" (fresh picky [0])).2)
    !! "q.sql"
  = Some [("PARAM_foo_PARAM", (2, {[ "${foo}"; "${Foo}" ]}));
          ("PARAM_bar_PARAM", (1, {[ "${bar}" ]}))].
Proof. vm_compute; reflexivity. Qed.

(** The first call pops [${foo}] and returns. *)
Lemma picky_first_call_returns :
  (un_expand "q.sql" "PARAM_foo_PARAM PARAM_bar_PARAM"
     (expand "q.sql" "${Foo} ${foo} ${bar}" (fresh picky [0])).2).1
  = inr "${foo} ${bar}".
Proof. vm_compute; reflexivity. Qed.

(** [PARAM_bar_PARAM] has exactly one original, the first call returns, and
    yet the second call does not raise [KeyError]: it pops [${Foo}] for the
    entry before, whose recovered token [\1] is rejected as a replacement
    template, so it raises [re.error] before it reaches the empty set. *)
Lemma second_un_expand_not_KeyError :
  let st := (expand "q.sql" "${Foo} ${foo} ${bar}" (fresh picky [0])).2 in
  let text := "PARAM_foo_PARAM PARAM_bar_PARAM" in
  ~ (Exists (fun it : string * (nat * gset string) => size it.2.2 = 1)
            (default [] (reverse (self st) !! "q.sql")) ->
     (un_expand "q.sql" text (un_expand "q.sql" text st).2).1 = inl KeyError).
Proof.
  assert ((un_expand "q.sql" "PARAM_foo_PARAM PARAM_bar_PARAM"
             (un_expand "q.sql" "PARAM_foo_PARAM PARAM_bar_PARAM"
                (expand "q.sql" "${Foo} ${foo} ${bar}"
                   (fresh picky [0])).2).2).1
          = inl re_error) as Hsecond by (vm_compute; reflexivity).
  intros st text H. subst st text. rewrite Hsecond, picky_index in H.
  assert (inl re_error = (inl KeyError : exn + string)) as Heq; [|done].
  apply H. apply Exists_cons_tl, Exists_cons_hd. cbn [fst snd].
  apply size_singleton.
Qed.

(** C10 (amended).  A call of [un_expand] that returns has removed one
    original from the set of every entry of [reverse[file]] and kept the keys
    and counts.  Hence, when some generated value had exactly one original
    and no recovered token contains a backslash, calling [un_expand] again
    on the file raises [KeyError] for any text. *)
Theorem un_expand_consumes_originals (file_name text out : string)
    (st st' : state) (items : dict (nat * gset string)) :
  reverse (self st) !! file_name = Some items ->
  un_expand file_name text st = (inr out, st') ->
  (exists items',
     reverse (self st') !! file_name = Some items' /\
     Forall2 popped items items') /\
  (Exists (fun it : string * (nat * gset string) => size it.2.2 = 1) items ->
   plain_tokens (un_generator (self st)) file_name items ->
   forall text2, (un_expand file_name text2 st').1 = inl KeyError).
Proof.
  intros Hrev. rewrite (un_expand_run _ _ _ _ Hrev).
  destruct (consume _ file_name items text (tape st))
    as [[r items'] tp'] eqn:Hc.
  intros [= -> <-]. apply consume_returns in Hc as Hpop.
  assert (reverse (self (mkState
            (set_reverse (self st) (<[file_name := items']> (reverse (self st))))
            (log st ++ ambiguity_warnings items) tp')) !! file_name
          = Some items') as Hrev' by apply lookup_insert_eq.
  split; [by exists items'|].
  intros Hone Hplain text2. rewrite (un_expand_run _ _ _ _ Hrev').
  cbn [self tape un_generator set_reverse].
  pose proof (consume_empty (un_generator (self st)) file_name items' text2 tp'
                (popped_singleton _ _ Hpop Hone)
                (popped_plain _ _ _ _ Hpop Hplain)) as Hk.
  destruct (consume _ file_name items' text2 tp') as [[r2 items2] tp2].
  exact Hk.
Qed.

Lemma un_expand_consumes_originals_witness :
  let st := (expand "a.sql" "${foo}" (fresh foo_bar [])).2 in
  let st' := (un_expand "a.sql" "BAR" st).2 in
  let items := [("BAR", (1, ({[ "${foo}" ]} : gset string)))] in
  (exists items',
     reverse (self st') !! "a.sql" = Some items' /\
     Forall2 popped items items') /\
  (Exists (fun it : string * (nat * gset string) => size it.2.2 = 1) items ->
   plain_tokens None "a.sql" items ->
   forall text2, (un_expand "a.sql" text2 st').1 = inl KeyError).
Proof.
  apply (un_expand_consumes_originals "a.sql" "BAR" "${foo}"
           (expand "a.sql" "${foo}" (fresh foo_bar [])).2
           (un_expand "a.sql" "BAR"
              (expand "a.sql" "${foo}" (fresh foo_bar [])).2).2
           [("BAR", (1, {[ "${foo}" ]}))]);
    vm_compute; reflexivity.
Defined.

(** * Further properties of the expander *)

(** ** What [expand] touches *)

Lemma substitute_all_frame (file_name : string) (ms : list re.Match) :
  forall st : state,
    tape (substitute_all file_name ms st) = tape st /\
    (exists ws, log (substitute_all file_name ms st) = (log st ++ ws)%list) /\
    forall f, f <> file_name ->
      reverse (self (substitute_all file_name ms st)) !! f
      = reverse (self st) !! f /\
      unmapped (self (substitute_all file_name ms st)) !! f
      = unmapped (self st) !! f.
Proof.
  induction ms as [|m ms IH]; intros st.
  - repeat split. exists []. by rewrite app_nil_r.
  - rewrite substitute_all_cons.
    destruct (IH (substituted file_name m st)) as (Ht & [ws Hl] & Hf).
    split; [by rewrite Ht|]. split.
    + rewrite Hl. unfold substituted; cbn [log].
      destruct (mapped _ _); [by exists ws|].
      destruct (generator _); [by exists ws|].
      eexists. by rewrite <- app_assoc.
    + intros f Hne. destruct (Hf f Hne) as [-> ->].
      unfold substituted; cbn [self reverse unmapped].
      split; [by rewrite lookup_insert_ne|].
      destruct (mapped _ _); [done|]. destruct (generator _); [|done].
      destruct (unmapped (self st) !! file_name); [done|].
      by rewrite lookup_insert_ne.
Qed.

(** X1.  [expand] never raises and never consumes a pop choice.  It keeps
    the construction arguments of the expander, only appends to the log, and
    leaves the [reverse] and [unmapped] entries of every other file as they
    were. *)
Theorem expand_frame (file_name text : string) (st : state) :
  exists (out : string) (st' : state),
    expand file_name text st = (inr out, st') /\
    same_config (self st') (self st) /\
    tape st' = tape st /\
    (exists ws, log st' = (log st ++ ws)%list) /\
    forall f, f <> file_name ->
      reverse (self st') !! f = reverse (self st) !! f /\
      unmapped (self st') !! f = unmapped (self st) !! f.
Proof.
  rewrite expand_run. eexists _, _. split; [reflexivity|].
  split; [apply substitute_all_config|].
  apply substitute_all_frame.
Qed.

Lemma render_no_match (p : re.Pattern) (f : re.Match -> string) (text : string) :
  forall skip : nat,
    re.findall_from p skip text = [] -> render p f skip text = str_drop skip text.
Proof.
  induction text as [|c rest IH]; intros [|k]; simpl; try reflexivity.
  - destruct (p (String c rest)) as [[m g]|]; [done|].
    intros H. by rewrite IH.
  - apply IH.
Qed.

(** X2.  When the pattern does not occur in the text, [expand] returns the
    text and leaves the whole state as it was: no entry is created for the
    file in [reverse] or [unmapped], and nothing is logged. *)
Theorem expand_no_occurrence (file_name text : string) (st : state) :
  re.findall (pattern (self st)) text = [] ->
  expand file_name text st = (inr text, st).
Proof.
  intros Hnone. rewrite expand_run, Hnone.
  unfold re.findall in Hnone. by rewrite render_no_match.
Qed.

Lemma expand_no_occurrence_witness :
  re.findall re.macro_pattern "select $foo from {t}" = [] /\
  expand "a.sql" "select $foo from {t}" (fresh aurigae.expander [])
  = (inr "select $foo from {t}", fresh aurigae.expander []).
Proof.
  split; [reflexivity|].
  apply (expand_no_occurrence "a.sql" "select $foo from {t}"
           (fresh aurigae.expander [])).
  reflexivity.
Defined.

(** ** Counts and shape of the reverse index *)

(** Recording one pair: the step [record_all] iterates. *)
Lemma record_all_cons (g o : string) (gs : list (string * string))
    (d : dict (nat * gset string)) :
  record_all ((g, o) :: gs) d
  = record_all gs
      (dict_set g
         match dict_get g d with
         | Some original => (original.1 + 1, original.2 ∪ {[o]})
         | None => (1, {[o]})
         end d).
Proof. reflexivity. Qed.

Lemma dict_get_elem {V} (k : string) (v : V) (d : dict V) :
  dict_get k d = Some v -> (k, v) ∈ d.
Proof.
  induction d as [|[k' v'] d IH]; simpl; [done|].
  destruct (String.eqb k k') eqn:Hk.
  - apply String.eqb_eq in Hk as <-. intros [= ->]. apply list_elem_of_here.
  - intros H. apply list_elem_of_further. by apply IH.
Qed.

Lemma dict_get_None {V} (k : string) (d : dict V) :
  dict_get k d = None <-> k ∉ d.*1.
Proof.
  induction d as [|[k' v'] d IH]; simpl.
  - split; [intros _; apply not_elem_of_nil|done].
  - rewrite not_elem_of_cons. destruct (String.eqb k k') eqn:Hk.
    + apply String.eqb_eq in Hk. split; [done|]. by intros [? _].
    + apply String.eqb_neq in Hk. rewrite IH. by split; [|intros [_ ?]].
Qed.

Lemma elem_of_dict_set {V} (k : string) (v : V) (d : dict V) (x : string * V) :
  x ∈ dict_set k v d -> x = (k, v) \/ x ∈ d.
Proof.
  induction d as [|[k' v'] d IH]; simpl.
  - intros ->%list_elem_of_singleton. by left.
  - destruct (String.eqb k k') eqn:Hk.
    + apply String.eqb_eq in Hk as <-.
      intros [->|H]%elem_of_cons; [by left|].
      right. by apply list_elem_of_further.
    + intros [->|H]%elem_of_cons.
      * right. apply list_elem_of_here.
      * destruct (IH H) as [->|H']; [by left|].
        right. by apply list_elem_of_further.
Qed.

Lemma dict_set_Forall {V} (P : string * V -> Prop) (k : string) (v : V)
    (d : dict V) :
  Forall P d -> P (k, v) -> Forall P (dict_set k v d).
Proof.
  intros Hd Hv. apply Forall_forall. intros x Hx.
  destruct (elem_of_dict_set _ _ _ _ Hx) as [->|Hin]; [done|].
  by eapply Forall_forall in Hd.
Qed.

Lemma dict_set_keys {V} (k : string) (v : V) (d : dict V) :
  (dict_set k v d).*1
  = match dict_get k d with
    | Some _ => d.*1
    | None => (d.*1 ++ [k])%list
    end.
Proof.
  induction d as [|[k' v'] d IH]; [done|]. cbn [dict_set dict_get].
  destruct (String.eqb k k') eqn:Hk; [done|].
  rewrite !fmap_cons, IH. by destruct (dict_get k d).
Qed.

Lemma total_count_record (g o : string) (d : dict (nat * gset string)) :
  total_count
    (dict_set g
       match dict_get g d with
       | Some original => (original.1 + 1, original.2 ∪ {[o]})
       | None => (1, {[o]})
       end d)
  = S (total_count d).
Proof.
  induction d as [|[k [n s]] d IH]; simpl; [done|].
  destruct (String.eqb g k) eqn:Hk; simpl.
  - unfold total_count; simpl. lia.
  - unfold total_count in *; simpl. rewrite IH. lia.
Qed.

Lemma total_count_record_all (gs : list (string * string)) :
  forall d : dict (nat * gset string),
    total_count (record_all gs d) = total_count d + length gs.
Proof.
  induction gs as [|[g o] gs IH]; intros d.
  - simpl. lia.
  - rewrite record_all_cons, IH, total_count_record. simpl. lia.
Qed.

(** The entries of the file after [expand], for any state. *)
Lemma expand_index (file_name text : string) (st : state) :
  default [] (reverse (self (expand file_name text st).2) !! file_name)
  = record_all
      (map (fun m => (resolve (self st) file_name m, re.group0 m))
           (re.findall (pattern (self st)) text))
      (default [] (reverse (self st) !! file_name)).
Proof.
  rewrite expand_run. cbn [snd]. rewrite substitute_all_reverse.
  by destruct (re.findall (pattern (self st)) text).
Qed.

(** X3.  The counts of [reverse[file]] add up: after [expand] their sum has
    grown by exactly the number of occurrences of the pattern in the text,
    whatever values the occurrences resolved to. *)
Theorem expand_counts_occurrences (file_name text : string) (st : state) :
  total_count (default [] (reverse (self (expand file_name text st).2) !! file_name))
  = total_count (default [] (reverse (self st) !! file_name))
    + length (re.findall (pattern (self st)) text).
Proof.
  rewrite expand_index, total_count_record_all. by rewrite length_map.
Qed.

Lemma index_ok_record (g o : string) (d : dict (nat * gset string)) :
  index_ok d ->
  index_ok
    (dict_set g
       match dict_get g d with
       | Some original => (original.1 + 1, original.2 ∪ {[o]})
       | None => (1, {[o]})
       end d).
Proof.
  intros [Hnd Hall]. split.
  - rewrite dict_set_keys. destruct (dict_get g d) eqn:Hg; [done|].
    apply NoDup_app. split; [done|]. split; [|apply NoDup_singleton].
    intros x Hx ->%list_elem_of_singleton. by apply dict_get_None in Hg.
  - apply dict_set_Forall; [done|].
    destruct (dict_get g d) as [[n s]|] eqn:Hg; cbn [fst snd].
    + apply dict_get_elem in Hg.
      eapply Forall_forall in Hall; [|exact Hg]. simpl in Hall.
      pose proof (size_union_alt s {[o]}) as Hsz.
      assert (size (({[o]} : gset string) ∖ s) <= 1) as Hle.
      { rewrite <- (size_singleton (C:=gset string) o).
        apply subseteq_size, subseteq_difference_l. reflexivity. }
      lia.
    + rewrite size_singleton. lia.
Qed.

(** X4.  [expand] keeps the reverse index of the file well formed: keys stay
    distinct, and every entry holds at least one original and counts at least
    as many occurrences as it holds originals. *)
Theorem expand_keeps_index_ok (file_name text : string) (st : state) :
  index_ok (default [] (reverse (self st) !! file_name)) ->
  index_ok (default [] (reverse (self (expand file_name text st).2) !! file_name)).
Proof.
  rewrite expand_index.
  generalize (map (fun m => (resolve (self st) file_name m, re.group0 m))
                  (re.findall (pattern (self st)) text)).
  generalize (default [] (reverse (self st) !! file_name)).
  intros d gs. revert d. induction gs as [|[g o] gs IH]; intros d Hok; [done|].
  rewrite record_all_cons. by apply IH, index_ok_record.
Qed.

Lemma expand_keeps_index_ok_witness :
  index_ok (default [] (reverse (self (fresh aurigae.expander [])) !! "q.sql")) /\
  index_ok (default [] (reverse (self
     (expand "q.sql" "${Foo} ${foo} ${bar}" (fresh aurigae.expander [])).2)
     !! "q.sql")).
Proof.
  assert (index_ok (default []
            (reverse (self (fresh aurigae.expander [])) !! "q.sql"))) as H0
    by (split; constructor).
  split; [exact H0|].
  exact (expand_keeps_index_ok "q.sql" "${Foo} ${foo} ${bar}"
           (fresh aurigae.expander []) H0).
Defined.

(** ** What the bookkeeping holds *)

Lemma record_all_sound (gs : list (string * string)) :
  forall (d : dict (nat * gset string)) (k o : string) (n : nat)
         (s : gset string),
    (k, (n, s)) ∈ record_all gs d -> o ∈ s ->
    (k, o) ∈ gs \/ exists n0 s0, (k, (n0, s0)) ∈ d /\ o ∈ s0.
Proof.
  induction gs as [|[g o'] gs IH]; intros d k o n s Hin Ho.
  - right. by exists n, s.
  - rewrite record_all_cons in Hin.
    destruct (IH _ _ _ _ _ Hin Ho) as [Hgs|(n0 & s0 & Hin0 & Ho0)].
    { left. by apply list_elem_of_further. }
    apply elem_of_dict_set in Hin0 as [Heq|Hd].
    + destruct (dict_get g d) as [[n1 s1]|] eqn:Hg;
        injection Heq as -> -> ->.
      * apply elem_of_union in Ho0 as [Ho0|Ho0].
        -- right. exists n1, s1. split; [by apply dict_get_elem|done].
        -- apply elem_of_singleton in Ho0 as ->. left. apply list_elem_of_here.
      * apply elem_of_singleton in Ho0 as ->. left. apply list_elem_of_here.
    + right. by exists n0, s0.
Qed.

(** X5.  On a file that has no entry yet, [reverse[file]] after [expand]
    holds the original [o] under the value [k] exactly when some occurrence
    of the pattern in the text has matched text [o] and resolved to [k]. *)
Theorem expand_index_exact (file_name text : string) (st : state)
    (k o : string) :
  reverse (self st) !! file_name = None ->
  (exists n s,
     (k, (n, s)) ∈ default [] (reverse (self (expand file_name text st).2)
                                 !! file_name) /\ o ∈ s)
  <-> exists m, m ∈ re.findall (pattern (self st)) text /\
                resolve (self st) file_name m = k /\ re.group0 m = o.
Proof.
  intros Hfresh. rewrite expand_index, Hfresh. cbn [default from_option].
  split.
  - intros (n & s & Hin & Ho).
    destruct (record_all_sound _ _ _ _ _ _ Hin Ho)
      as [Hgs|(n0 & s0 & Hnil & _)]; [|by apply elem_of_nil in Hnil].
    apply list_elem_of_fmap in Hgs as (m & [= -> ->] & Hm). by exists m.
  - intros (m & Hm & <- & <-).
    destruct (record_all_recorded
                (map (fun m => (resolve (self st) file_name m, re.group0 m))
                     (re.findall (pattern (self st)) text))
                [] (resolve (self st) file_name m) (re.group0 m))
      as (n & s & Hget & _ & Ho).
    { apply list_elem_of_fmap. by exists m. }
    exists n, s. split; [by apply dict_get_elem|done].
Qed.

Lemma expand_index_exact_witness :
  reverse (self (fresh foo_bar [])) !! "a.sql" = None /\
  ((exists n s,
      ("BAR", (n, s)) ∈ default []
         (reverse (self (expand "a.sql" "${foo} ${x}" (fresh foo_bar [])).2)
            !! "a.sql") /\ "${foo}" ∈ s)
   <-> exists m, m ∈ re.findall re.macro_pattern "${foo} ${x}" /\
                 resolve foo_bar "a.sql" m = "BAR" /\ re.group0 m = "${foo}").
Proof.
  split; [reflexivity|].
  apply (expand_index_exact "a.sql" "${foo} ${x}" (fresh foo_bar [])
           "BAR" "${foo}").
  reflexivity.
Defined.

Lemma substitute_all_unmapped (file_name : string) (ms : list re.Match) :
  forall (st : state) (name : string),
    name ∈ default ∅ (unmapped (self (substitute_all file_name ms st))
                        !! file_name) ->
    name ∈ default ∅ (unmapped (self st) !! file_name) \/
    exists m, m ∈ ms /\ re.group1 m = name /\
              mapped (mapping (self st)) name = None /\
              is_Some (generator (self st)).
Proof.
  induction ms as [|m ms IH]; intros st name Hin; [by left|].
  rewrite substitute_all_cons in Hin.
  destruct (IH _ _ Hin) as [Hold|(m' & Hm' & Hn & Hmp & Hg)].
  - unfold substituted in Hold; cbn [self unmapped] in Hold.
    destruct (mapped (mapping (self st)) (re.group1 m)) eqn:Hmp; [by left|].
    destruct (generator (self st)) eqn:Hg; [|by left].
    destruct (unmapped (self st) !! file_name) eqn:Hu.
    + left. by rewrite Hu in *.
    + rewrite lookup_insert_eq in Hold. cbn [default from_option id] in Hold.
      apply elem_of_singleton in Hold as ->.
      right. exists m. repeat split; [apply list_elem_of_here|done..].
  - right. exists m'. split; [by apply list_elem_of_further|done].
Qed.

(** X6.  A name enters [unmapped[file]] only through the generator: every
    name found there after [expand] was there before, or is the macro name of
    an occurrence in the text that the static mapping does not resolve, in an
    expander that has a generator. *)
Theorem expand_unmapped_sound (file_name text name : string) (st : state) :
  name ∈ default ∅ (unmapped (self (expand file_name text st).2) !! file_name) ->
  name ∈ default ∅ (unmapped (self st) !! file_name) \/
  exists m, m ∈ re.findall (pattern (self st)) text /\ re.group1 m = name /\
            mapped (mapping (self st)) name = None /\
            is_Some (generator (self st)).
Proof. rewrite expand_run. cbn [snd]. apply substitute_all_unmapped. Qed.

Lemma expand_unmapped_sound_witness :
  "a" ∈ default ∅ (unmapped (self
     (expand "q.sql" "${a} ${b}" (fresh aurigae.expander [])).2) !! "q.sql") /\
  ("a" ∈ default ∅ (unmapped (self (fresh aurigae.expander [])) !! "q.sql") \/
   exists m, m ∈ re.findall re.macro_pattern "${a} ${b}" /\ re.group1 m = "a" /\
             mapped None "a" = None /\
             is_Some (Some aurigae.generator)).
Proof.
  assert ("a" ∈ default ∅ (unmapped (self
     (expand "q.sql" "${a} ${b}" (fresh aurigae.expander [])).2) !! "q.sql"))
    as Hin.
  { assert (unmapped (self (expand "q.sql" "${a} ${b}"
                              (fresh aurigae.expander [])).2) !! "q.sql"
            = Some {[ "a" ]}) as -> by (vm_compute; reflexivity).
    by apply elem_of_singleton. }
  split; [exact Hin|].
  exact (expand_unmapped_sound "q.sql" "${a} ${b}" "a"
           (fresh aurigae.expander []) Hin).
Defined.

(** ** What [un_expand] touches *)

Lemma consume_shape (ug : option (string -> string -> string -> string))
    (file_name : string) (items : dict (nat * gset string)) :
  forall (text : string) (tp : list nat),
    Forall2 (fun it it' : string * (nat * gset string) =>
               it'.1 = it.1 /\ it'.2.1 = it.2.1 /\ it'.2.2 ⊆ it.2.2)
            items (consume ug file_name items text tp).1.2.
Proof.
  assert (forall l : dict (nat * gset string),
            Forall2 (fun it it' : string * (nat * gset string) =>
                       it'.1 = it.1 /\ it'.2.1 = it.2.1 /\ it'.2.2 ⊆ it.2.2)
                    l l) as Hrefl.
  { induction l as [|it l IHl]; [constructor|].
    constructor; [|exact IHl]. by repeat split. }
  induction items as [|[r [c s]] items IH]; intros text tp; simpl.
  - constructor.
  - destruct (chosen (hd 0 tp) s) as [x|]; [|apply Hrefl].
    assert (s ∖ {[x]} ⊆ s) as Hsub
      by apply subseteq_difference_l, reflexivity.
    destruct (re.subn_escape _ r _ text) as [err|result]; simpl.
    + constructor; [by repeat split|apply Hrefl].
    + specialize (IH result.1 (tl tp)).
      destruct (consume ug file_name items result.1 (tl tp)) as [[r' rest] tp'].
      constructor; [by repeat split|exact IH].
Qed.

(** X7.  Whether it returns or raises, [un_expand] on a file that has
    entries adds no key to them, changes no count and never adds an original;
    it logs exactly the warnings of the sanity pass and leaves the
    construction arguments, [unmapped] and the entries of every other file
    as they were. *)
Theorem un_expand_frame (file_name text : string) (st : state)
    (items : dict (nat * gset string)) :
  reverse (self st) !! file_name = Some items ->
  exists items',
    reverse (self (un_expand file_name text st).2) !! file_name = Some items' /\
    Forall2 (fun it it' : string * (nat * gset string) =>
               it'.1 = it.1 /\ it'.2.1 = it.2.1 /\ it'.2.2 ⊆ it.2.2)
            items items' /\
    same_config (self (un_expand file_name text st).2) (self st) /\
    unmapped (self (un_expand file_name text st).2) = unmapped (self st) /\
    log (un_expand file_name text st).2
    = (log st ++ ambiguity_warnings items)%list /\
    forall f, f <> file_name ->
      reverse (self (un_expand file_name text st).2) !! f
      = reverse (self st) !! f.
Proof.
  intros Hrev. rewrite (un_expand_run _ _ _ _ Hrev).
  pose proof (consume_shape (un_generator (self st)) file_name items text
                (tape st)) as Hshape.
  destruct (consume _ file_name items text (tape st)) as [[r items'] tp'].
  exists items'. cbn [snd self log set_reverse reverse unmapped].
  split; [apply lookup_insert_eq|]. split; [exact Hshape|].
  repeat split. intros f Hne. by apply lookup_insert_ne.
Qed.

Lemma un_expand_frame_witness :
  let st := (expand "q.sql" "${Foo} ${foo}" (fresh aurigae.expander [])).2 in
  let items := [("PARAM_foo_PARAM", (2, ({[ "${Foo}"; "${foo}" ]} : gset string)))] in
  exists items',
    reverse (self (un_expand "q.sql" "x" st).2) !! "q.sql" = Some items' /\
    Forall2 (fun it it' : string * (nat * gset string) =>
               it'.1 = it.1 /\ it'.2.1 = it.2.1 /\ it'.2.2 ⊆ it.2.2)
            items items' /\
    same_config (self (un_expand "q.sql" "x" st).2) (self st) /\
    unmapped (self (un_expand "q.sql" "x" st).2) = unmapped (self st) /\
    log (un_expand "q.sql" "x" st).2
    = (log st ++ ambiguity_warnings items)%list /\
    forall f, f <> "q.sql" ->
      reverse (self (un_expand "q.sql" "x" st).2) !! f
      = reverse (self st) !! f.
Proof.
  apply (un_expand_frame "q.sql" "x"
           (expand "q.sql" "${Foo} ${foo}" (fresh aurigae.expander [])).2
           [("PARAM_foo_PARAM", (2, {[ "${Foo}"; "${foo}" ]}))]).
  vm_compute; reflexivity.
Defined.

(** ** Literal replacement *)

Lemma expand_template_lit (x matched : string) :
  re.expand_template (map re.Lit (list_ascii_of_string x)) matched = x.
Proof. induction x as [|c x IH]; simpl; [done|]. by rewrite IH. Qed.

Lemma starts_with_take (x text : string) :
  re.starts_with false x text = true -> str_take (String.length x) text = x.
Proof.
  revert text; induction x as [|a x IH]; intros [|b text]; simpl; try done.
  intros [Hab Hx]%andb_prop. apply Ascii.eqb_eq in Hab as ->.
  by rewrite IH.
Qed.

Lemma str_drop_nil (n : nat) : str_drop n "" = "".
Proof. by destruct n. Qed.

Lemma subn_from_same (a : ascii) (x : string) (text : string) :
  forall skip : nat,
    (re.subn_from false (String a x)
       (map re.Lit (list_ascii_of_string (String a x))) skip text).1
    = str_drop skip text.
Proof.
  induction text as [|c rest IH]; intros [|k]; try reflexivity.
  - cbn [re.subn_from].
    replace (String.length (String a x) - 1) with (String.length x)
      by (cbn [String.length]; lia).
    destruct (re.starts_with false (String a x) (String c rest)) eqn:Hs.
    + specialize (IH (String.length x)).
      destruct (re.subn_from _ _ _ _ rest) as [out n]. cbn [fst] in *.
      rewrite expand_template_lit, IH.
      rewrite <- (starts_with_take _ _ Hs) at 1.
      cbn [String.length str_take].
      change (String c (str_take (String.length x) rest
                        +:+ str_drop (String.length x) rest) = String c rest).
      by rewrite str_take_drop.
    + specialize (IH 0). destruct (re.subn_from _ _ _ _ rest) as [out n].
      cbn [fst] in *. by rewrite IH.
  - cbn [re.subn_from str_drop]. apply IH.
Qed.

Lemma replace_literal_same (x text : string) :
  x <> "" -> replace_literal false x x text = text.
Proof.
  destruct x as [|a x]; [done|]. intros _. unfold replace_literal.
  apply (subn_from_same a x text 0).
Qed.

Lemma subn_from_absent (ignore_case : bool) (x : string) (t : list re.item)
    (text : string) :
  occurs ignore_case x text = false ->
  forall skip : nat,
    re.subn_from ignore_case x t skip text = (str_drop skip text, 0).
Proof.
  induction text as [|c rest IH]; intros Hocc [|k]; try reflexivity.
  - cbn [occurs] in Hocc. apply orb_false_elim in Hocc as [Hs Hrest].
    cbn [re.subn_from]. rewrite Hs, (IH Hrest 0). reflexivity.
  - cbn [occurs] in Hocc. apply orb_false_elim in Hocc as [_ Hrest].
    cbn [re.subn_from str_drop]. by apply IH.
Qed.

Lemma replace_literal_absent (ignore_case : bool) (x token text : string) :
  x <> "" -> occurs ignore_case x text = false ->
  replace_literal ignore_case x token text = text.
Proof.
  destruct x as [|a x]; [done|]. intros _ Hocc. unfold replace_literal.
  by rewrite subn_from_absent.
Qed.

(** ** The pattern [\$\{(\w+)\}] *)

Lemma span_word_spec (s : string) :
  s = (re.span_word s).1 +:+ (re.span_word s).2 /\
  re.all_chars is_word (re.span_word s).1 = true /\
  match (re.span_word s).2 with
  | "" => True
  | String c _ => is_word c = false
  end.
Proof.
  induction s as [|c s IH]; simpl; [done|].
  destruct (is_word c) eqn:Hc; simpl; [|done].
  destruct (re.span_word s) as [w r]; simpl in *.
  destruct IH as (Hs & Hw & Hr). split; [|split; [by rewrite Hc, Hw|done]].
  change (String c s = String c (w +:+ r)). by rewrite <- Hs.
Qed.

Lemma span_word_app (w r : string) :
  re.all_chars is_word w = true ->
  match r with "" => True | String c _ => is_word c = false end ->
  re.span_word (w +:+ r) = (w, r).
Proof.
  intros Hw Hr. induction w as [|c w IH]; simpl in *.
  - destruct r as [|c r]; [done|]. simpl. by rewrite Hr.
  - apply andb_prop in Hw as [Hc Hw].
    change (String c w +:+ r) with (String c (w +:+ r)).
    cbn [re.span_word]. rewrite Hc. by rewrite (IH Hw).
Qed.

(** What a match of the pattern looks like. *)
Lemma macro_pattern_inv (s : string) (n : nat) (g : string) :
  re.macro_pattern s = Some (n, g) ->
  exists r, s = "${" +:+ g +:+ "}" +:+ r /\
            re.all_chars is_word g = true /\ g <> "" /\
            n = 2 + String.length g.
Proof.
  unfold re.macro_pattern.
  destruct s as [|c1 [|c2 s]]; try done.
  { by destruct c1 as [[] [] [] [] [] [] [] []]. }
  destruct (Ascii.eqb_spec c1 "$") as [->|Hc1].
  2:{ by destruct c1 as [[] [] [] [] [] [] [] []]. }
  destruct (Ascii.eqb_spec c2 "{") as [->|Hc2].
  2:{ by destruct c2 as [[] [] [] [] [] [] [] []]. }
  destruct (span_word_spec s) as (Hs & Hw & _).
  destruct (re.span_word s) as [[|c w] [|c3 r]]; try done.
  destruct (Ascii.eqb_spec c3 "}") as [->|Hc3].
  2:{ by destruct c3 as [[] [] [] [] [] [] [] []]. }
  intros [= <- <-]. exists r. simpl in Hs. rewrite Hs. done.
Qed.

Lemma macro_pattern_intro (g r : string) :
  re.all_chars is_word g = true -> g <> "" ->
  re.macro_pattern ("${" +:+ g +:+ "}" +:+ r) = Some (2 + String.length g, g).
Proof.
  intros Hg Hne.
  change ("${" +:+ g +:+ "}" +:+ r)
    with (String "$" (String "{" (g +:+ String "}" r))).
  unfold re.macro_pattern. rewrite (span_word_app g (String "}" r) Hg eq_refl).
  by destruct g.
Qed.

Lemma has_char_app (c : ascii) (s1 s2 : string) :
  has_char c (s1 +:+ s2) = has_char c s1 || has_char c s2.
Proof.
  induction s1 as [|d s1 IH]; [done|].
  change (String d s1 +:+ s2) with (String d (s1 +:+ s2)).
  cbn [has_char]. rewrite IH. by rewrite orb_assoc.
Qed.

Lemma word_plain (w : string) :
  re.all_chars is_word w = true -> has_char backslash w = false.
Proof.
  induction w as [|c w IH]; [done|]. cbn [re.all_chars has_char].
  intros [Hc Hw]%andb_prop. rewrite (IH Hw), orb_false_r.
  destruct (Ascii.eqb_spec backslash c) as [<-|]; [|done].
  by vm_compute in Hc.
Qed.

Lemma str_take_app (s r : string) : str_take (String.length s) (s +:+ r) = s.
Proof.
  induction s as [|c s IH]; simpl; [by destruct r|].
  change (String c s +:+ r) with (String c (s +:+ r)). by rewrite IH.
Qed.

Lemma str_length_app (s r : string) :
  String.length (s +:+ r) = String.length s + String.length r.
Proof.
  induction s as [|c s IH]; [done|].
  change (String c s +:+ r) with (String c (s +:+ r)). simpl. by rewrite IH.
Qed.

Lemma macro_match_plain (s : string) (n : nat) (g : string) :
  re.macro_pattern s = Some (n, g) ->
  str_take (S n) s = "${" +:+ g +:+ "}" /\
  has_char backslash (str_take (S n) s) = false.
Proof.
  intros (r & -> & Hg & _ & ->)%macro_pattern_inv.
  assert (str_take (S (2 + String.length g)) ("${" +:+ g +:+ "}" +:+ r)
          = "${" +:+ g +:+ "}") as ->.
  { replace (S (2 + String.length g))
      with (String.length ("${" +:+ g +:+ "}")).
    - rewrite <- (str_take_app ("${" +:+ g +:+ "}") r) at 2.
      f_equal. change ("${" +:+ g +:+ "}" +:+ r)
        with (String "$" (String "{" (g +:+ String "}" r))).
      change (("${" +:+ g +:+ "}") +:+ r)
        with (String "$" (String "{" ((g +:+ "}") +:+ r))).
      do 2 f_equal. induction g as [|c g IH]; [done|].
      change (String c (g +:+ String "}" r) = String c ((g +:+ "}") +:+ r)).
      f_equal. apply IH. by apply andb_prop in Hg as [_ ?].
    - change ("${" +:+ g +:+ "}") with (String "$" (String "{" (g +:+ "}"))).
      simpl. rewrite str_length_app. simpl. lia. }
  split; [done|].
  change ("${" +:+ g +:+ "}") with (String "$" (String "{" (g +:+ "}"))).
  cbn [has_char]. rewrite has_char_app, (word_plain g Hg). reflexivity.
Qed.

(** Every match [sub] visits is a match of the pattern at some suffix. *)
Lemma findall_from_match (p : re.Pattern) (text : string) :
  forall (skip : nat) (m : re.Match),
    m ∈ re.findall_from p skip text ->
    exists s n g, p s = Some (n, g) /\ s <> "" /\
                  m = re.mkMatch (str_take (S n) s) g.
Proof.
  induction text as [|c rest IH]; intros [|k] m; simpl;
    try (by intros ?%elem_of_nil).
  - destruct (p (String c rest)) as [[n g]|] eqn:Hp.
    + intros [->|Hin]%elem_of_cons; [|by eapply IH].
      by exists (String c rest), n, g.
    + apply IH.
  - apply IH.
Qed.

(** ** [expand] followed by [un_expand] *)

Lemma record_all_Forall (P : string * (nat * gset string) -> Prop)
    (gs : list (string * string)) :
  (forall g o n s, (g, o) ∈ gs -> P (g, (n, s)) -> P (g, (n + 1, s ∪ {[o]}))) ->
  (forall g o, (g, o) ∈ gs -> P (g, (1, {[o]}))) ->
  forall d : dict (nat * gset string),
    Forall P d -> Forall P (record_all gs d).
Proof.
  induction gs as [|[g o] gs IH]; intros Hupd Hnew d Hd; [done|].
  rewrite record_all_cons. apply IH.
  - intros g' o' n s Hin. apply Hupd. by apply list_elem_of_further.
  - intros g' o' Hin. apply Hnew. by apply list_elem_of_further.
  - apply dict_set_Forall; [done|].
    destruct (dict_get g d) as [[n s]|] eqn:Hg.
    + apply Hupd; [apply list_elem_of_here|].
      apply dict_get_elem in Hg. by eapply Forall_forall in Hd.
    + apply Hnew, list_elem_of_here.
Qed.

Lemma findall_macro_plain (text : string) (m : re.Match) :
  m ∈ re.findall re.macro_pattern text ->
  re.group0 m <> "" /\ has_char backslash (re.group0 m) = false.
Proof.
  intros (s & n & g & Hp & Hs & ->)%findall_from_match. cbn [re.group0].
  split; [by destruct s|]. by apply macro_match_plain in Hp as [_ ?].
Qed.

Lemma consume_same (file_name : string) (items : dict (nat * gset string)) :
  forall (text : string) (tp : list nat),
    Forall (fun it : string * (nat * gset string) =>
              it.2.2 = {[ it.1 ]} /\ it.1 <> "" /\
              has_char backslash it.1 = false) items ->
    (consume None file_name items text tp).1.1 = inr text.
Proof.
  induction items as [|[k [n s]] items IH]; intros text tp Hall; [done|].
  inversion Hall as [|? ? (Hs & Hk & Hp) Hall']; subst. cbn [fst snd] in *.
  subst s. cbn [consume fst snd ignores_case recovered].
  rewrite chosen_singleton.
  destruct (subn_escape_plain false k k text Hp) as [c ->]. cbn [fst].
  rewrite (replace_literal_same k text Hk).
  specialize (IH text (tl tp) Hall').
  by destruct (consume None file_name items text (tl tp)) as [[r rest] tp'].
Qed.

(** X8.  With the pattern [\$\{(\w+)\}] and neither mapping, generator nor
    un-generator, [expand] on a file without entries followed by
    [un_expand] on its output gives back the text, for every text. *)
Theorem unresolved_round_trip (file_name text : string) (st : state) :
  pattern (self st) = re.macro_pattern ->
  mapping (self st) = None ->
  generator (self st) = None ->
  un_generator (self st) = None ->
  reverse (self st) !! file_name = None ->
  (expand file_name text st).1 = inr text /\
  (un_expand file_name text (expand file_name text st).2).1 = inr text.
Proof.
  intros Hp Hm Hg Hu Hfresh.
  assert (forall m, resolve (self st) file_name m = re.group0 m) as Hres.
  { intros m. unfold resolve. by rewrite Hm, Hg. }
  pose proof (expand_index file_name text st) as Hidx.
  destruct (substitute_all_config file_name
              (re.findall (pattern (self st)) text) st) as (_ & _ & _ & Hu').
  rewrite expand_run in *. cbn [fst snd] in *.
  split; [by rewrite render_identity|].
  destruct (reverse (self (substitute_all file_name
              (re.findall (pattern (self st)) text) st)) !! file_name)
    as [items|] eqn:Hrev.
  2:{ unfold un_expand, bind, get_self. by rewrite Hrev. }
  rewrite (un_expand_run _ _ _ _ Hrev), Hu', Hu.
  cbn [default from_option id] in Hidx. rewrite Hfresh in Hidx.
  pose proof (consume_same file_name items text
                (tape (substitute_all file_name
                         (re.findall (pattern (self st)) text) st))) as Hc.
  destruct (consume None file_name items text _) as [[r rest] tp'].
  apply Hc. rewrite Hidx. apply record_all_Forall; [| |constructor].
  - intros g o n s (m & [= -> ->] & Hin)%list_elem_of_fmap (Hs & Hk & Hpl).
    cbn [fst snd] in *. rewrite Hres in *. split; [|done].
    rewrite Hs. apply union_idemp_L.
  - intros g o (m & [= -> ->] & Hin)%list_elem_of_fmap. cbn [fst snd].
    rewrite Hres. split; [done|]. rewrite Hp in Hin.
    by apply (findall_macro_plain text).
Qed.

Lemma unresolved_round_trip_witness :
  (expand "a.sql" "a ${x} b ${y} ${x}" (fresh bare [7])).1
  = inr "a ${x} b ${y} ${x}" /\
  (un_expand "a.sql" "a ${x} b ${y} ${x}"
     (expand "a.sql" "a ${x} b ${y} ${x}" (fresh bare [7])).2).1
  = inr "a ${x} b ${y} ${x}".
Proof.
  apply (unresolved_round_trip "a.sql" "a ${x} b ${y} ${x}" (fresh bare [7]));
    reflexivity.
Defined.

(** X9.  With the pattern [\$\{(\w+)\}] and no un-generator, whatever the
    mapping and the generator are: after [expand] on a file without entries,
    [un_expand] on that file returns a text for any input, it does not
    raise. *)
Theorem un_expand_after_expand_returns (file_name text text' : string)
    (st : state) :
  pattern (self st) = re.macro_pattern ->
  un_generator (self st) = None ->
  reverse (self st) !! file_name = None ->
  exists out,
    (un_expand file_name text' (expand file_name text st).2).1 = inr out.
Proof.
  intros Hp Hu Hfresh.
  pose proof (expand_index file_name text st) as Hidx.
  destruct (substitute_all_config file_name
              (re.findall (pattern (self st)) text) st) as (_ & _ & _ & Hu').
  rewrite expand_run in *. cbn [fst snd] in *.
  destruct (reverse (self (substitute_all file_name
              (re.findall (pattern (self st)) text) st)) !! file_name)
    as [items|] eqn:Hrev.
  2:{ exists text'. unfold un_expand, bind, get_self. by rewrite Hrev. }
  rewrite (un_expand_run _ _ _ _ Hrev), Hu', Hu.
  cbn [default from_option id] in Hidx. rewrite Hfresh in Hidx.
  destruct (consume_plain None file_name items text'
              (tape (substitute_all file_name
                       (re.findall (pattern (self st)) text) st)))
    as (picks & items' & tp' & -> & _).
  - rewrite Hidx. apply record_all_Forall; [| |constructor].
    + intros g o n s _ _ Hempty. cbn [fst snd] in Hempty.
      assert (o ∈ (∅ : gset string)) as Ho
        by (rewrite <- Hempty; apply elem_of_union; right;
            by apply elem_of_singleton).
      by apply not_elem_of_empty in Ho.
    + intros g o _ Hempty. cbn [fst snd] in Hempty.
      assert (o ∈ (∅ : gset string)) as Ho
        by (rewrite <- Hempty; by apply elem_of_singleton).
      by apply not_elem_of_empty in Ho.
  - apply Forall_forall. intros [k [n s]] Hin o Ho. cbn [fst snd recovered] in *.
    rewrite Hidx in Hin.
    destruct (record_all_sound _ _ _ _ _ _ Hin Ho)
      as [Hgs|(? & ? & Hnil & _)]; [|by apply elem_of_nil in Hnil].
    apply list_elem_of_fmap in Hgs as (m & [= -> ->] & Hm).
    rewrite Hp in Hm. by destruct (findall_macro_plain text m Hm).
  - by eexists.
Qed.

Lemma un_expand_after_expand_returns_witness :
  exists out,
    (un_expand "a.sql" "x BAR PARAM_y_PARAM"
       (expand "a.sql" "${foo} ${Foo} ${y}" (fresh foo_bar [])).2).1 = inr out.
Proof.
  apply (un_expand_after_expand_returns "a.sql" "${foo} ${Foo} ${y}"
           "x BAR PARAM_y_PARAM" (fresh foo_bar []));
    reflexivity.
Defined.

Lemma consume_absent (ug : option (string -> string -> string -> string))
    (file_name : string) (text : string)
    (items : dict (nat * gset string)) :
  forall tp : list nat,
    Forall (fun it : string * (nat * gset string) => it.2.2 <> ∅) items ->
    plain_tokens ug file_name items ->
    Forall (fun it : string * (nat * gset string) =>
              it.1 <> "" /\ occurs (ignores_case ug) it.1 text = false) items ->
    (consume ug file_name items text tp).1.1 = inr text.
Proof.
  induction items as [|[k [n s]] items IH]; intros tp Hne Hplain Habs; [done|].
  inversion Hne as [|? ? Hs Hne']; subst.
  inversion Hplain as [|? ? Hp Hplain']; subst.
  inversion Habs as [|? ? [Hk Hocc] Habs']; subst. cbn [fst snd] in *.
  cbn [consume fst snd].
  destruct (chosen (hd 0 tp) s) as [x|] eqn:Hx.
  2:{ by apply chosen_None in Hx. }
  pose proof (chosen_elem _ _ _ Hx) as Hin.
  destruct (subn_escape_plain (ignores_case ug) k
              (recovered ug file_name k x) text (Hp x Hin)) as [c ->].
  cbn [fst]. rewrite (replace_literal_absent _ _ _ _ Hk Hocc).
  specialize (IH (tl tp) Hne' Hplain' Habs').
  by destruct (consume ug file_name items text (tl tp)) as [[r rest] tp'].
Qed.

(** X10.  Without an un-generator, on a file whose entries all have a
    non-empty generated value, at least one original and no original holding
    a backslash: when no generated value occurs in the text, [un_expand]
    returns the text as it is; one original is consumed from every entry all
    the same. *)
Theorem un_expand_absent_values (file_name text : string) (st : state)
    (items : dict (nat * gset string)) :
  un_generator (self st) = None ->
  reverse (self st) !! file_name = Some items ->
  Forall (fun it : string * (nat * gset string) =>
            it.1 <> "" /\ it.2.2 <> ∅ /\
            occurs false it.1 text = false /\
            forall o, o ∈ it.2.2 -> has_char backslash o = false)
         items ->
  (un_expand file_name text st).1 = inr text /\
  exists items',
    reverse (self (un_expand file_name text st).2) !! file_name = Some items' /\
    Forall2 popped items items'.
Proof.
  intros Hug Hrev Hall. rewrite (un_expand_run _ _ _ _ Hrev), Hug.
  assert ((consume None file_name items text (tape st)).1.1 = inr text) as Hc.
  { apply consume_absent.
    - eapply Forall_impl; [exact Hall|]. by intros it (_ & ? & _).
    - eapply Forall_impl; [exact Hall|]. by intros it (_ & _ & _ & ?).
    - eapply Forall_impl; [exact Hall|]. by intros it (? & _ & ? & _). }
  destruct (consume None file_name items text (tape st))
    as [[r items'] tp'] eqn:Hcons.
  cbn [fst snd] in *. subst r. split; [done|].
  exists items'. cbn [self reverse set_reverse].
  split; [apply lookup_insert_eq|]. by eapply consume_returns.
Qed.

Lemma un_expand_absent_values_witness :
  let st := (expand "a.sql" "${foo}" (fresh foo_bar [])).2 in
  let items := [("BAR", (1, ({[ "${foo}" ]} : gset string)))] in
  (un_expand "a.sql" "select bar" st).1 = inr "select bar" /\
  exists items',
    reverse (self (un_expand "a.sql" "select bar" st).2) !! "a.sql"
    = Some items' /\
    Forall2 popped items items'.
Proof.
  apply (un_expand_absent_values "a.sql" "select bar"
           (expand "a.sql" "${foo}" (fresh foo_bar [])).2
           [("BAR", (1, {[ "${foo}" ]}))]).
  - reflexivity.
  - vm_compute; reflexivity.
  - constructor; [|constructor]. cbn [fst snd].
    split; [discriminate|]. split; [|split; [reflexivity|]].
    + intros H.
      assert ("${foo}" ∈ (∅ : gset string)) as Hin
        by (rewrite <- H; by apply elem_of_singleton).
      by apply not_elem_of_empty in Hin.
    + intros o Ho. apply elem_of_singleton in Ho as ->. reflexivity.
Defined.

(** ** The expander of [aurigae_macros] *)

Lemma word_lower (c : ascii) :
  is_word c = true ->
  is_word (lower_char c) = true /\ Ascii.eqb (lower_char c) newline = false.
Proof. by destruct c as [[] [] [] [] [] [] [] []]; vm_compute. Qed.

Lemma words_lower (w : string) :
  re.all_chars is_word w = true ->
  re.all_chars is_word (lower w) = true /\ has_char newline (lower w) = false.
Proof.
  induction w as [|c w IH]; [done|]. cbn [re.all_chars lower has_char].
  intros [Hc Hw]%andb_prop. destruct (word_lower c Hc) as [Hc1 Hc2].
  destruct (IH Hw) as [-> ->]. rewrite Hc1.
  rewrite Ascii.eqb_sym, Hc2. done.
Qed.

Lemma greedy_until_PARAM (s : string) :
  s <> "" -> has_char newline s = false ->
  aurigae.greedy_until "_PARAM" (s +:+ "_PARAM") = Some s.
Proof.
  induction s as [|c s IH]; [done|]. intros _.
  change (String c s +:+ "_PARAM") with (String c (s +:+ "_PARAM")).
  cbn [has_char aurigae.greedy_until].
  intros [Hc Hs]%orb_false_elim. rewrite Ascii.eqb_sym, Hc.
  destruct s as [|d s]; [reflexivity|]. by rewrite IH.
Qed.

Lemma match_PARAM_generator (file_name name : string) :
  re.all_chars is_word name = true -> name <> "" ->
  aurigae.match_PARAM (aurigae.generator file_name name) = Some (lower name).
Proof.
  intros Hw Hne. destruct (words_lower name Hw) as [_ Hnl].
  unfold aurigae.generator, aurigae.match_PARAM.
  change ("PARAM_" +:+ lower name +:+ "_PARAM")
    with (String "P" (String "A" (String "R" (String "A" (String "M"
           (String "_" (lower name +:+ "_PARAM"))))))).
  cbn [re.starts_with re.char_eqb str_drop]. rewrite !Ascii.eqb_refl.
  cbn [andb]. apply greedy_until_PARAM; [by destruct name|done].
Qed.

(** X11.  For a macro name made of word characters, the un-generator applied
    to the generator's value gives the lower-cased name in braces, whatever
    original it is handed: neither the [$] nor the case of the macro
    reference comes back. *)
Theorem un_generator_of_generator (file_name file_name' name original : string) :
  re.all_chars is_word name = true ->
  name <> "" ->
  aurigae.un_generator file_name (aurigae.generator file_name' name) original
  = "{" +:+ lower name +:+ "}".
Proof.
  intros Hw Hne. unfold aurigae.un_generator.
  by rewrite (match_PARAM_generator file_name' name Hw Hne).
Qed.

Lemma un_generator_of_generator_witness :
  aurigae.un_generator "q.sql" (aurigae.generator "q.sql" "Customer_ID") "${Customer_ID}"
  = "{" +:+ lower "Customer_ID" +:+ "}".
Proof.
  apply (un_generator_of_generator "q.sql" "q.sql" "Customer_ID" "${Customer_ID}").
  - reflexivity.
  - discriminate.
Defined.

Lemma findall_from_short (p : re.Pattern) (s : string) :
  forall k : nat, String.length s <= k -> re.findall_from p k s = [].
Proof.
  induction s as [|c s IH]; intros [|k] Hk; simpl in *; try done; try lia.
  apply IH. lia.
Qed.

Lemma render_short (p : re.Pattern) (f : re.Match -> string) (s : string) :
  forall k : nat, String.length s <= k -> render p f k s = "".
Proof.
  induction s as [|c s IH]; intros [|k] Hk; simpl in *; try done; try lia.
  apply IH. lia.
Qed.

Lemma str_take_all (s : string) (k : nat) :
  String.length s <= k -> str_take k s = s.
Proof.
  revert k; induction s as [|c s IH]; intros [|k] Hk; simpl in *;
    try done; try lia.
  rewrite IH; [done|lia].
Qed.

Lemma str_app_nil_r (s : string) : s +:+ "" = s.
Proof.
  induction s as [|c s IH]; [done|].
  change (String c (s +:+ "") = String c s). by rewrite IH.
Qed.

Lemma starts_with_refl (ignore_case : bool) (x r : string) :
  re.starts_with ignore_case x (x +:+ r) = true.
Proof.
  induction x as [|a x IH]; [by destruct r|].
  change (String a x +:+ r) with (String a (x +:+ r)).
  cbn [re.starts_with]. rewrite IH.
  unfold re.char_eqb. destruct ignore_case; by rewrite Ascii.eqb_refl.
Qed.

Lemma subn_from_short (ignore_case : bool) (x : string) (t : list re.item)
    (s : string) :
  forall k : nat,
    String.length s <= k -> re.subn_from ignore_case x t k s = ("", 0).
Proof.
  induction s as [|c s IH]; intros [|k] Hk; simpl in *; try done; try lia.
  apply IH. lia.
Qed.

(** Replacing in a text that is the literal itself gives the token. *)
Lemma replace_literal_whole (ignore_case : bool) (x token : string) :
  x <> "" -> replace_literal ignore_case x token x = token.
Proof.
  destruct x as [|a x]; [done|]. intros _. unfold replace_literal.
  cbn [re.subn_from].
  rewrite <- (str_app_nil_r (String a x)) at 2.
  rewrite starts_with_refl.
  rewrite subn_from_short by (simpl; lia). cbn [fst].
  by rewrite expand_template_lit, str_app_nil_r.
Qed.

Lemma findall_from_head (p : re.Pattern) (c : ascii) (rest : string)
    (m : nat) (g : string) :
  p (String c rest) = Some (m, g) ->
  re.findall_from p 0 (String c rest)
  = re.mkMatch (str_take (S m) (String c rest)) g :: re.findall_from p m rest.
Proof. simpl. by intros ->. Qed.

Lemma render_head (p : re.Pattern) (f : re.Match -> string) (c : ascii)
    (rest : string) (m : nat) (g : string) :
  p (String c rest) = Some (m, g) ->
  render p f 0 (String c rest)
  = f (re.mkMatch (str_take (S m) (String c rest)) g) +:+ render p f m rest.
Proof. simpl. by intros ->. Qed.

(** X12.  With the expander of [aurigae_macros], a reference [${name}] is
    expanded to [PARAM_name_PARAM] with the name in lower case, and
    un-expanding that value gives [{name}], still in lower case and without
    the [$]: the configured pair does not restore the reference. *)
Theorem aurigae_reference_not_restored (file_name name : string)
    (lg : list log_record) (tp : list nat) :
  re.all_chars is_word name = true ->
  name <> "" ->
  let r := expand file_name ("${" +:+ name +:+ "}")
                  (mkState aurigae.expander lg tp) in
  r.1 = inr ("PARAM_" +:+ lower name +:+ "_PARAM") /\
  (un_expand file_name ("PARAM_" +:+ lower name +:+ "_PARAM") r.2).1
  = inr ("{" +:+ lower name +:+ "}").
Proof.
  intros Hw Hne r. subst r.
  set (text := "${" +:+ name +:+ "}").
  set (value := "PARAM_" +:+ lower name +:+ "_PARAM").
  assert (re.macro_pattern text = Some (2 + String.length name, name)) as Hp
    by apply (macro_pattern_intro name "" Hw Hne).
  assert (String.length text = 3 + String.length name) as Hlen.
  { unfold text.
    change ("${" +:+ name +:+ "}") with (String "$" (String "{" (name +:+ "}"))).
    cbn [String.length]. rewrite str_length_app. simpl. lia. }
  assert (re.findall re.macro_pattern text = [re.mkMatch text name]) as Hms.
  { unfold re.findall. unfold text in *.
    change ("${" +:+ name +:+ "}") with (String "$" (String "{" (name +:+ "}")))
      in *.
    rewrite (findall_from_head _ _ _ _ _ Hp).
    rewrite findall_from_short by (cbn [String.length] in *; lia).
    f_equal. f_equal.
    apply (str_take_all (String "$" (String "{" (name +:+ "}")))). lia. }
  assert (render re.macro_pattern (resolve aurigae.expander file_name) 0 text
          = value) as Hout.
  { unfold text in *.
    change ("${" +:+ name +:+ "}") with (String "$" (String "{" (name +:+ "}")))
      in *.
    rewrite (render_head _ _ _ _ _ _ Hp).
    rewrite render_short by (cbn [String.length] in *; lia).
    by rewrite str_app_nil_r. }
  rewrite expand_run. cbn [fst snd self pattern aurigae.expander __init__].
  rewrite Hout, Hms. split; [done|].
  rewrite substitute_all_cons.
  erewrite un_expand_run.
  2:{ unfold substitute_all, substituted. cbn. by rewrite lookup_insert_eq. }
  cbn [self un_generator aurigae.expander __init__ substitute_all substituted
       fold_left reverse].
  rewrite lookup_empty.
  cbn [default from_option record_all fold_left dict_get dict_set fst snd
       consume re.group0 re.group1 resolve mapped mapping generator
       ignores_case recovered tape].
  fold value. rewrite chosen_singleton.
  unfold aurigae.un_generator. rewrite (match_PARAM_generator _ _ Hw Hne).
  destruct (words_lower name Hw) as [Hlw _].
  change (aurigae.generator file_name name) with value.
  destruct (subn_escape_plain true value ("{" +:+ lower name +:+ "}") value)
    as [n ->].
  { change ("{" +:+ lower name +:+ "}") with (String "{" (lower name +:+ "}")).
    cbn [has_char]. by rewrite has_char_app, (word_plain _ Hlw). }
  cbn [fst]. by rewrite replace_literal_whole.
Qed.

Lemma aurigae_reference_not_restored_witness :
  let r := expand "q.sql" ("${" +:+ "Customer_ID" +:+ "}")
                  (mkState aurigae.expander [] [2]) in
  r.1 = inr ("PARAM_" +:+ lower "Customer_ID" +:+ "_PARAM") /\
  (un_expand "q.sql" ("PARAM_" +:+ lower "Customer_ID" +:+ "_PARAM") r.2).1
  = inr ("{" +:+ lower "Customer_ID" +:+ "}").
Proof.
  apply (aurigae_reference_not_restored "q.sql" "Customer_ID" [] [2]).
  - reflexivity.
  - discriminate.
Defined.

(** ** The router with one or several matching routes *)

Section RouterMore.

Variable fnmatch : string -> string -> bool.

Lemma choose_loop_chosen (file_name : string) (routes : dict nat) :
  forall acc : option nat * option string * list string,
    (fold_left
       (fun acc route =>
          if fnmatch file_name route.1
          then (Some route.2, Some route.1, (acc.2 ++ [file_name])%list)
          else acc)
       routes acc).1.1
    = match last (List.filter (fun route => fnmatch file_name route.1) routes) with
      | Some route => Some route.2
      | None => acc.1.1
      end.
Proof.
  induction routes as [|[pat a] routes IH]; intros acc; [done|].
  cbn [fold_left List.filter fst snd].
  destruct (fnmatch file_name pat); [|apply IH].
  rewrite IH, last_cons. by destruct (last _).
Qed.

(** The outcome of [choose_expander], by the number of matching routes. *)
Lemma choose_expander_run (router : MacroExpanderRouter) (file_name : string)
    (rs : rstate) :
  choose_expander fnmatch router file_name rs
  = match List.filter (fun route => fnmatch file_name route.1)
                      (all_macros router) with
    | [] => (inr None, rs)
    | [route] => (inr (Some route.2), rs)
    | _ => (inl NameError, rs)
    end.
Proof.
  unfold choose_expander.
  pose proof (choose_loop_length fnmatch file_name (all_macros router)
                (None, None, [])) as Hlen.
  pose proof (choose_loop_chosen file_name (all_macros router)
                (None, None, [])) as Hch.
  fold (choose_loop fnmatch file_name (all_macros router)) in Hlen, Hch.
  destruct (choose_loop fnmatch file_name (all_macros router))
    as [[chosen_expander chosen_pattern] matches].
  cbn [fst snd length] in Hlen, Hch.
  destruct (List.filter _ (all_macros router)) as [|r1 [|r2 l]];
    cbn [length] in Hlen.
  - by destruct matches.
  - destruct matches as [|? [|? ?]]; try done. by rewrite Hch.
  - destruct matches as [|? [|? ?]]; done.
Qed.

End RouterMore.

(** X13.  When exactly one registered pattern matches the file name,
    [choose_expander] returns the expander of that route, logs nothing and
    changes nothing. *)
Theorem choose_expander_unique (fnmatch : string -> string -> bool)
    (router : MacroExpanderRouter) (file_name pat : string) (a : nat)
    (rs : rstate) :
  List.filter (fun route => fnmatch file_name route.1) (all_macros router)
  = [(pat, a)] ->
  choose_expander fnmatch router file_name rs = (inr (Some a), rs).
Proof. intros Hone. by rewrite choose_expander_run, Hone. Qed.

Lemma choose_expander_unique_witness :
  List.filter (fun route => glob_fnmatch "x.bteq" route.1)
              (all_macros aurigae.aurigae_macro_router)
  = [("*.bteq", 0)] /\
  choose_expander glob_fnmatch aurigae.aurigae_macro_router "x.bteq" store0
  = (inr (Some 0), store0).
Proof.
  split; [reflexivity|].
  apply (choose_expander_unique glob_fnmatch aurigae.aurigae_macro_router
           "x.bteq" "*.bteq" 0 store0).
  reflexivity.
Defined.

(** X14.  [Router.expand] raises exactly when more than one registered
    pattern matches the file name, and what it raises then is [NameError]:
    with no match it returns the text, and with one match the expander's
    [expand] returns. *)
Theorem router_expand_raises_iff (fnmatch : string -> string -> bool)
    (router : MacroExpanderRouter) (file_name text : string) (rs : rstate) :
  ((exists e, (Router_expand fnmatch router file_name text rs).1 = inl e)
   <-> 1 < length (List.filter (fun route => fnmatch file_name route.1)
                               (all_macros router))) /\
  forall e, (Router_expand fnmatch router file_name text rs).1 = inl e ->
            e = NameError.
Proof.
  unfold Router_expand, bind. rewrite choose_expander_run.
  destruct (List.filter _ (all_macros router)) as [|[pat a] [|r2 l]];
    cbn [length].
  - split; [|done]. split; [by intros [e ?]|lia].
  - unfold call. rewrite expand_run.
    split; [|done]. split; [by intros [e ?]|lia].
  - split; [|by intros e [= <-]]. split; [lia|]. by exists NameError.
Qed.

(** X15.  When exactly one registered pattern matches, [Router.expand] and
    [Router.un_expand] are the methods of that route's expander, run on the
    object at its address with the shared log and tape: the outcome is the
    method's, the object is replaced by the one the method leaves, and every
    other object is untouched. *)
Theorem router_delegates (fnmatch : string -> string -> bool)
    (router : MacroExpanderRouter) (file_name text pat : string) (a : nat)
    (rs : rstate) :
  List.filter (fun route => fnmatch file_name route.1) (all_macros router)
  = [(pat, a)] ->
  let rx := Router_expand fnmatch router file_name text rs in
  let ru := Router_un_expand fnmatch router file_name text rs in
  (rx.1 = (expand file_name text (view rs a)).1 /\
   view rx.2 a = (expand file_name text (view rs a)).2 /\
   forall b, b <> a -> objects rx.2 b = objects rs b) /\
  (ru.1 = (un_expand file_name text (view rs a)).1 /\
   view ru.2 a = (un_expand file_name text (view rs a)).2 /\
   forall b, b <> a -> objects ru.2 b = objects rs b).
Proof.
  intros Hone. cbv zeta. unfold Router_expand, Router_un_expand, bind.
  rewrite choose_expander_run, Hone. cbn [snd]. unfold call, view.
  split.
  - destruct (expand file_name text _) as [r [e lg tp]]. cbn [fst snd].
    repeat split.
    + unfold view. cbn. by rewrite Nat.eqb_refl.
    + intros b Hb. cbn. by apply Nat.eqb_neq in Hb as ->.
  - destruct (un_expand file_name text _) as [r [e lg tp]]. cbn [fst snd].
    repeat split.
    + unfold view. cbn. by rewrite Nat.eqb_refl.
    + intros b Hb. cbn. by apply Nat.eqb_neq in Hb as ->.
Qed.

Lemma router_delegates_witness :
  let rx := Router_expand glob_fnmatch aurigae.aurigae_macro_router
              "x.sql" "${a}" store0 in
  let ru := Router_un_expand glob_fnmatch aurigae.aurigae_macro_router
              "x.sql" "${a}" store0 in
  (rx.1 = (expand "x.sql" "${a}" (view store0 0)).1 /\
   view rx.2 0 = (expand "x.sql" "${a}" (view store0 0)).2 /\
   forall b, b <> 0 -> objects rx.2 b = objects store0 b) /\
  (ru.1 = (un_expand "x.sql" "${a}" (view store0 0)).1 /\
   view ru.2 0 = (un_expand "x.sql" "${a}" (view store0 0)).2 /\
   forall b, b <> 0 -> objects ru.2 b = objects store0 b).
Proof.
  apply (router_delegates glob_fnmatch aurigae.aurigae_macro_router
           "x.sql" "${a}" "*.sql" 0 store0).
  reflexivity.
Defined.

(** ** Edge behaviour of the bookkeeping *)

Lemma substitute_all_unmapped_kept (file_name : string) (ms : list re.Match) :
  forall (st : state) (names : gset string),
    unmapped (self st) !! file_name = Some names ->
    unmapped (self (substitute_all file_name ms st)) !! file_name = Some names.
Proof.
  induction ms as [|m ms IH]; intros st names Hu; [done|].
  rewrite substitute_all_cons. apply IH.
  unfold substituted; cbn [self unmapped]. rewrite Hu.
  destruct (mapped (mapping (self st)) (re.group1 m)); [done|].
  by destruct (generator (self st)).
Qed.

(** X16.  Once [unmapped[file]] exists, [expand] on that file never changes
    it: the set is created by the first name that goes through the
    generator and holds that name from then on. *)
Theorem expand_keeps_unmapped (file_name text : string) (st : state)
    (names : gset string) :
  unmapped (self st) !! file_name = Some names ->
  unmapped (self (expand file_name text st).2) !! file_name = Some names.
Proof.
  intros Hu. rewrite expand_run. cbn [snd].
  by apply substitute_all_unmapped_kept.
Qed.

Lemma expand_keeps_unmapped_witness :
  let st := (expand "q.sql" "${a}" (fresh aurigae.expander [])).2 in
  unmapped (self st) !! "q.sql" = Some {[ "a" ]} /\
  unmapped (self (expand "q.sql" "${b} ${c}" st).2) !! "q.sql" = Some {[ "a" ]}.
Proof.
  assert (unmapped (self (expand "q.sql" "${a}"
                            (fresh aurigae.expander [])).2) !! "q.sql"
          = Some {[ "a" ]}) as Hu by (vm_compute; reflexivity).
  split; [exact Hu|].
  exact (expand_keeps_unmapped "q.sql" "${b} ${c}"
           (expand "q.sql" "${a}" (fresh aurigae.expander [])).2 {[ "a" ]} Hu).
Defined.

(** X17.  When the first entry of [reverse[file]] has no original left,
    [un_expand] raises [KeyError] before any replacement: no pop choice is
    consumed and the reverse index is as it was. *)
Theorem un_expand_exhausted_first (file_name text k : string) (n : nat)
    (rest : dict (nat * gset string)) (st : state) :
  reverse (self st) !! file_name = Some ((k, (n, ∅)) :: rest) ->
  (un_expand file_name text st).1 = inl KeyError /\
  reverse (self (un_expand file_name text st).2) = reverse (self st) /\
  tape (un_expand file_name text st).2 = tape st.
Proof.
  intros Hrev. rewrite (un_expand_run _ _ _ _ Hrev).
  cbn [consume fst snd]. unfold chosen. rewrite elements_empty.
  cbn [fst snd self reverse set_reverse tape]. repeat split.
  by apply insert_id.
Qed.

Lemma un_expand_exhausted_first_witness :
  let st := (un_expand "a.sql" "BAR"
               (expand "a.sql" "${foo}" (fresh foo_bar [])).2).2 in
  (un_expand "a.sql" "BAR" st).1 = inl KeyError /\
  reverse (self (un_expand "a.sql" "BAR" st).2) = reverse (self st) /\
  tape (un_expand "a.sql" "BAR" st).2 = tape st.
Proof.
  apply (un_expand_exhausted_first "a.sql" "BAR" "BAR" 1 []
           (un_expand "a.sql" "BAR"
              (expand "a.sql" "${foo}" (fresh foo_bar [])).2).2).
  vm_compute; reflexivity.
Defined.
